(** * dir_to_graph: the tree builder of [src/dir_to_graph/core.py]

    A shallow embedding of [get_folder_size], [_normalize_ignores],
    [build_tree_json], [write_tree_json], [cli.main] and [build_dod],
    together with the parts of the Python library they rely on ([os.walk],
    [os.path.abspath], [networkx.DiGraph],
    [networkx.readwrite.json_graph.tree_data]), followed by the definitions
    the statements need, the proofs, the claims C1 to C10, and further
    properties of the same functions.

    Modelling conventions.
    - An absolute, normalised path is the list of its segments below ["/"].
    - The file system is a finite tree of entries.  It does not change
      during a build; [write_tree_json] creates the output directory before
      the build starts.  A non-directory entry records what
      [os.path.isfile] and [os.path.getsize] answer for it, a directory
      records whether [os.scandir] can list it.  Symbolic links, and the
      permissions to search and to write, are not modelled.
    - [time.monotonic] is a clock [clock : nat -> Z]: its [n]-th call returns
      [clock n] ticks; the number of calls made so far is part of the state.
    - [print] appends a message to the state.
    - Interpreter resource limits (recursion depth, memory) are not modelled. *)

From Stdlib Require Import ZArith Lia Ascii String.
From stdpp Require Import base strings gmap list.

Set Warnings "-register-all".

Local Open Scope string_scope.
Local Open Scope list_scope.
Local Open Scope Z_scope.

(** ** Paths *)

Abbreviation path := (list string) (only parsing).

(** [os.path.join(p, name)] for a segment [name]. *)
Definition join (p : path) (name : string) : path := p ++ [name].

(** [os.path.basename]: the last segment, empty for ["/"]. *)
Definition basename (p : path) : string := List.last p "".

(** [str.split(sep)]. *)
Fixpoint split (sep : Ascii.ascii) (s : string) : list string :=
  match s with
  | EmptyString => [EmptyString]
  | String c s' =>
      if Ascii.eqb c sep then EmptyString :: split sep s'
      else match split sep s' with
           | x :: r => String c x :: r
           | [] => [String c EmptyString]
           end
  end.

(** The loop of [posixpath.normpath] on a path that starts with a slash:
    empty and ["."] components are skipped, [".."] pops a segment (and is
    dropped at the root), anything else is pushed. *)
Definition normpath_step (new_comps : path) (comp : string) : path :=
  if bool_decide (comp = "" ∨ comp = ".") then new_comps
  else if bool_decide (comp = "..") then List.removelast new_comps
  else new_comps ++ [comp].

Definition normpath_from (start : path) (comps : list string) : path :=
  fold_left normpath_step comps start.

Definition isabs (p : string) : bool :=
  match p with String "/"%char _ => true | _ => false end.

(** [os.path.abspath(p)] in the working directory [cwd]:
    [normpath(p)] if [p] is absolute, [normpath(join(cwd, p))] otherwise.
    (POSIX keeps a leading double slash; that distinction is not kept.) *)
Definition abspath (cwd : path) (p : string) : path :=
  normpath_from (if isabs p then [] else cwd) (split "/"%char p).

(** [os.path.abspath] applied to a value of type [path], which is absolute
    and normalised already: it is returned unchanged. *)
Definition abspath_path (p : path) : path := p.

(** ** The file system *)

Inductive entry :=
| File (name : string) (regular : bool) (size : option Z)
| Dir (name : string) (listable : bool) (content : list entry).

Definition entry_name (e : entry) : string :=
  match e with File n _ _ => n | Dir n _ _ => n end.

(** [DirEntry.is_dir()]. *)
Definition is_dir (e : entry) : bool :=
  match e with Dir _ _ _ => true | File _ _ _ => false end.

(** [os.path.isfile] on the path of [e]. *)
Definition isfile (e : entry) : bool :=
  match e with File _ r _ => r | Dir _ _ _ => false end.

(** [os.path.getsize] on the path of [e]; [None] stands for [OSError].
    It is only ever asked about non-directory entries. *)
Definition getsize (e : entry) : option Z :=
  match e with File _ _ sz => sz | Dir _ _ _ => None end.

(** The entry found under [name] in a directory listing. *)
Definition child (content : list entry) (name : string) : option entry :=
  List.find (fun e => bool_decide (entry_name e = name)) content.

(** The entry a path resolves to, from the root directory [fs]. *)
Fixpoint resolve (fs : entry) (p : path) : option entry :=
  match p with
  | [] => Some fs
  | x :: p' =>
      match fs with
      | Dir _ _ content =>
          match child content x with
          | Some e => resolve e p'
          | None => None
          end
      | File _ _ _ => None
      end
  end.

(** [os.path.isdir]. *)
Definition isdir (fs : entry) (p : path) : bool :=
  match resolve fs p with Some e => is_dir e | None => false end.

(** *** [os.makedirs(p, exist_ok=True)]

    The directories of [p] that are missing are created, empty, each at
    the end of the listing of its parent; a directory that is there is
    left as it is.  [None] stands for the [OSError] ([FileExistsError],
    [NotADirectoryError]) raised when a segment of [p] names something
    that is not a directory. *)
Fixpoint new_dirs (x : string) (p : path) : entry :=
  match p with
  | [] => Dir x true []
  | y :: p' => Dir x true [new_dirs y p']
  end.

(** The listing with the first entry called [x] replaced by [c]. *)
Fixpoint set_child (content : list entry) (x : string) (c : entry)
    : list entry :=
  match content with
  | [] => []
  | e :: rest =>
      if bool_decide (entry_name e = x) then c :: rest
      else e :: set_child rest x c
  end.

Fixpoint makedirs (p : path) (fs : entry) : option entry :=
  match fs with
  | File _ _ _ => None
  | Dir n l content =>
      match p with
      | [] => Some fs
      | x :: p' =>
          match child content x with
          | Some c =>
              match makedirs p' c with
              | Some c' => Some (Dir n l (set_child content x c'))
              | None => None
              end
          | None => Some (Dir n l (content ++ [new_dirs x p']))
          end
      end
  end.

(** *** [os.walk], top-down

    One item per directory that can be listed: [(top, dirs, files)].  An
    item carries, under each name, the entry the operating system finds
    there, and [w_here] is the directory [w_top] itself, so that a later
    [os.walk], [os.path.isfile] or [os.path.getsize] on a joined path is
    answered by that entry.  [keep] is the filter the consumer applies to
    [dirs] in place before the walk goes on: only kept directories are
    walked.  A directory that cannot be listed yields nothing (the default
    [onerror=None] swallows the error). *)
Record walk_item := WalkItem {
  w_top : path;
  w_here : entry;
  w_dirs : list entry;
  w_files : list entry
}.

Definition subdirs (keep : string → bool) (content : list entry) : list entry :=
  List.filter (fun e => is_dir e && keep (entry_name e)) content.

Definition nondirs (content : list entry) : list entry :=
  List.filter (fun e => negb (is_dir e)) content.

Fixpoint walk (keep : string → bool) (top : path) (e : entry) : list walk_item :=
  match e with
  | File _ _ _ => []
  | Dir _ false _ => []
  | Dir _ true content =>
      WalkItem top e (subdirs keep content) (nondirs content) ::
      List.flat_map
        (fun c => if is_dir c && keep (entry_name c)
                  then walk keep (join top (entry_name c)) c else [])
        content
  end.

(** [os.walk(top)] from the root directory [fs]. *)
Definition os_walk (keep : string → bool) (fs : entry) (top : path) : list walk_item :=
  match resolve fs top with
  | Some e => walk keep top e
  | None => []
  end.

(** ** State: the clock reads made so far and what was printed *)

Inductive message :=
| Line (text : string)
| Warning (full_path : path).

Record world := World { ticks : nat; stdout : list message }.

Definition M (A : Type) : Type := world → A * world.

Definition ret {A} (a : A) : M A := fun w => (a, w).

Definition bind {A B} (c : M A) (k : A → M B) : M B :=
  fun w => let (a, w') := c w in k a w'.

Notation "'do' x <- c ; k" := (bind c (fun x => k))
  (at level 10, x name, c at level 100, k at level 200).
Notation "'run' c ; k" := (bind c (fun _ => k))
  (at level 10, c at level 100, k at level 200).

Definition print (m : message) : M unit :=
  fun w => (tt, World (ticks w) (stdout w ++ [m])).

Fixpoint foldM {A B} (f : B → A → M B) (l : list A) (b : B) : M B :=
  match l with
  | [] => ret b
  | x :: l' => do b' <- f b x; foldM f l' b'
  end.

Section WithClock.

Variable clock : nat → Z.

(** [time.monotonic()]. *)
Definition monotonic : M Z :=
  fun w => (clock (ticks w), World (S (ticks w)) (stdout w)).

(** [deadline is not None and time.monotonic() > deadline]: the clock is
    only read when there is a deadline. *)
Definition expired (deadline : option Z) : M bool :=
  match deadline with
  | None => ret false
  | Some d => do now <- monotonic; ret (Z.ltb d now)
  end.

(** ** [get_folder_size] *)

(** The inner loop [for name in files]; [None] is the early [return None]. *)
Fixpoint scan_files (deadline : option Z) (root : path) (files : list entry)
    (total : Z) : M (option Z) :=
  match files with
  | [] => ret (Some total)
  | f :: files' =>
      do late <- expired deadline;
      if late then ret None
      else
        let full_path := join root (entry_name f) in
        if isfile f then
          match getsize f with
          | Some n => scan_files deadline root files' (total + n)
          | None =>
              run print (Warning full_path);
              scan_files deadline root files' total
          end
        else scan_files deadline root files' total
  end.

(** The outer loop [for root, _dirs, files in os.walk(path)]. *)
Fixpoint scan_items (deadline : option Z) (items : list walk_item)
    (total : Z) : M (option Z) :=
  match items with
  | [] => ret (Some total)
  | it :: items' =>
      do late <- expired deadline;
      if late then ret None
      else
        do r <- scan_files deadline (w_top it) (w_files it) total;
        match r with
        | None => ret None
        | Some total' => scan_items deadline items' total'
        end
  end.

(** [get_folder_size(path, deadline)], where [e] is the entry at [path]. *)
Definition get_folder_size (path : path) (e : entry) (deadline : option Z)
    : M (option Z) :=
  scan_items deadline (walk (fun _ => true) path e) 0.

End WithClock.

(** ** [_normalize_ignores] *)

Definition DEFAULT_IGNORES : list string :=
  [".git"; ".venv"; "venv"; "bin"; "__pycache__"; ".ipynb_checkpoints"].

(** The [ignore] argument when it is not [None]: a single [str], or any
    other iterable of strings. *)
Inductive ignore_arg :=
| IgnoreStr (s : string)
| IgnoreIter (names : list string).

Definition _normalize_ignores (ignore : option ignore_arg) : gset string :=
  match ignore with
  | None => list_to_set DEFAULT_IGNORES
  | Some (IgnoreStr s) => {[ s ]}
  | Some (IgnoreIter names) => list_to_set names
  end.

(** ** [networkx.DiGraph]

    Python dictionaries keep insertion order, so the node table and the
    adjacency are association lists in insertion order; [edges] lists the
    pairs [(u, v)] in the order in which they were first added, and the
    successors of [u] are met in that order.  An attribute that a node does
    not have is [None]; [size_bytes = Some None] is the Python value [None]
    under the key. *)

Inductive kind := folder | file.

Record attrs := Attrs {
  type : option kind;
  name : option string;
  size_bytes : option (option Z)
}.

Definition no_attrs : attrs := Attrs None None None.

(** [dict.update]: the keys of [new] override those of [old]. *)
Definition update_attrs (old new : attrs) : attrs :=
  Attrs (from_option Some (type old) (type new))
        (from_option Some (name old) (name new))
        (from_option Some (size_bytes old) (size_bytes new)).

Record DiGraph := Graph {
  nodes : list (path * attrs);
  edges : list (path * path)
}.

Definition empty_graph : DiGraph := Graph [] [].

Definition node_ids (g : DiGraph) : list path := (nodes g).*1.

Definition has_node (g : DiGraph) (n : path) : bool :=
  bool_decide (n ∈ node_ids g).

(** [g.nodes[n]]; [None] stands for [KeyError]. *)
Fixpoint lookup_attrs (l : list (path * attrs)) (n : path) : option attrs :=
  match l with
  | [] => None
  | (m, a) :: l' => if bool_decide (m = n) then Some a else lookup_attrs l' n
  end.

Definition node_attrs (g : DiGraph) (n : path) : option attrs :=
  lookup_attrs (nodes g) n.

Definition add_node (g : DiGraph) (n : path) (a : attrs) : DiGraph :=
  if has_node g n
  then Graph (List.map (fun '(m, b) =>
                if bool_decide (m = n) then (m, update_attrs b a) else (m, b))
                (nodes g))
             (edges g)
  else Graph (nodes g ++ [(n, a)]) (edges g).

Definition has_edge (g : DiGraph) (u v : path) : bool :=
  bool_decide ((u, v) ∈ edges g).

(** [add_edge] creates missing end points, without attributes. *)
Definition add_edge (g : DiGraph) (u v : path) : DiGraph :=
  let g1 := if has_node g u then g else add_node g u no_attrs in
  let g2 := if has_node g1 v then g1 else add_node g1 v no_attrs in
  if has_edge g2 u v then g2 else Graph (nodes g2) (edges g2 ++ [(u, v)]).

(** Iteration over [g[n]]. *)
Definition successors (g : DiGraph) (n : path) : list path :=
  (List.filter (fun e => bool_decide (e.1 = n)) (edges g)).*2.

Definition number_of_nodes (g : DiGraph) : nat := length (nodes g).
Definition number_of_edges (g : DiGraph) : nat := length (edges g).

(** *** Exceptions *)

Inductive exn :=
| TypeError (msg : string)
| KeyError (n : path)
| NetworkXPointlessConcept
| RecursionError
| SystemExit (msg : string) (p : path)
| OSError (p : path).

Inductive result (A : Type) :=
| Ok (a : A)
| Raise (e : exn).
Arguments Ok {A} a.
Arguments Raise {A} e.

(** *** [nx.is_weakly_connected]

    The component of the first node, ignoring edge directions, is grown by
    one layer of neighbours per round, for as many rounds as there are
    nodes; the graph is connected when that component has as many elements
    as the graph. *)
Definition neighbours (g : DiGraph) (n : path) : list path :=
  List.flat_map (fun e : path * path =>
    (if bool_decide (e.1 = n) then [e.2] else []) ++
    (if bool_decide (e.2 = n) then [e.1] else [])) (edges g).

Fixpoint component (rounds : nat) (g : DiGraph) (seen : list path) : list path :=
  match rounds with
  | O => seen
  | S r => component r g (remove_dups (seen ++ List.flat_map (neighbours g) seen))
  end.

Definition is_weakly_connected (g : DiGraph) : result bool :=
  match nodes g with
  | [] => Raise NetworkXPointlessConcept
  | (n0, _) :: _ =>
      Ok (bool_decide (length (component (number_of_nodes g) g [n0])
                       = number_of_nodes g))
  end.

(** *** [json_graph.tree_data]

    A node of the returned document: its [id], the attributes of the graph
    node, and its children.  For a node other than the root an empty list
    of children stands for the absent ["children"] key. *)
Inductive tree := Node (id : path) (a : attrs) (children : list tree).

Definition tree_id (t : tree) : path := match t with Node i _ _ => i end.
Definition tree_attrs (t : tree) : attrs := match t with Node _ a _ => a end.
Definition tree_children (t : tree) : list tree :=
  match t with Node _ _ c => c end.

Fixpoint collect {A B} (f : A → result B) (l : list A) : result (list B) :=
  match l with
  | [] => Ok []
  | x :: l' =>
      match f x with
      | Raise e => Raise e
      | Ok y => match collect f l' with
                | Raise e => Raise e
                | Ok ys => Ok (y :: ys)
                end
      end
  end.

(** The local function [add_children(n, G)].  Python recurses freely; here
    the depth of the recursion is bounded by [depth], and [RecursionError]
    is the answer when the bound is hit. *)
Fixpoint add_children (depth : nat) (g : DiGraph) (n : path) : result (list tree) :=
  match depth with
  | O => Raise RecursionError
  | S depth' =>
      collect (fun child =>
        match node_attrs g child with
        | None => Raise (KeyError child)
        | Some d =>
            match add_children depth' g child with
            | Raise e => Raise e
            | Ok c => Ok (Node child d c)
            end
        end) (successors g n)
  end.

(** The three checks of [tree_data] come first; [G.is_directed()] holds of
    every [DiGraph]. *)
Definition tree_data (g : DiGraph) (root : path) : result tree :=
  if negb (number_of_nodes g =? number_of_edges g + 1)%nat
  then Raise (TypeError "G is not a tree.")
  else
    match is_weakly_connected g with
    | Raise e => Raise e
    | Ok false => Raise (TypeError "G is not weakly connected.")
    | Ok true =>
        match node_attrs g root with
        | None => Raise (KeyError root)
        | Some d =>
            match add_children (number_of_nodes g) g root with
            | Raise e => Raise e
            | Ok c => Ok (Node root d c)
            end
        end
    end.

(** ** [build_tree_json] *)

(** The text of an absolute path. *)
Definition path_string (p : path) : string :=
  match p with
  | [] => "/"
  | _ => String.concat "" (List.map (fun seg => "/" +:+ seg) p)
  end.

Definition folder_attrs (nm : string) (sz : option Z) : attrs :=
  Attrs (Some folder) (Some nm) (Some sz).

Definition file_attrs (nm : string) (sz : option Z) : attrs :=
  Attrs (Some file) (Some nm) (Some sz).

(** [os.path.basename(parent_path) or parent_path]. *)
Definition parent_name (parent_path : path) : string :=
  if bool_decide (basename parent_path = "") then path_string parent_path
  else basename parent_path.

Section Builder.

Variable clock : nat → Z.

(** One round of [for d in dirs]. *)
Definition add_subdir (deadline : option Z) (subdir parent_path : path)
    (g : DiGraph) (d : entry) : M DiGraph :=
  let child_path := abspath_path (join subdir (entry_name d)) in
  do g' <- (if has_node g child_path then ret g
            else
              do child_size <- get_folder_size clock child_path d deadline;
              ret (add_node g child_path
                     (folder_attrs (entry_name d) child_size)));
  ret (add_edge g' parent_path child_path).

(** [os.path.getsize] inside [try ... except OSError]. *)
Definition try_getsize (full_path : path) (f : entry) : M (option Z) :=
  match getsize f with
  | Some n => ret (Some n)
  | None => run print (Warning full_path); ret None
  end.

(** One round of [for file_name in files]. *)
Definition add_file (subdir parent_path : path) (g : DiGraph) (f : entry)
    : M DiGraph :=
  let full_path := abspath_path (join subdir (entry_name f)) in
  do size <- try_getsize full_path f;
  let g' := if has_node g full_path then g
            else add_node g full_path (file_attrs (entry_name f) size) in
  ret (add_edge g' parent_path full_path).

(** The body of [for subdir, dirs, files in os.walk(dir_of_interest)];
    [dirs] has been filtered already (see [walk]). *)
Definition visit (deadline : option Z) (g : DiGraph) (it : walk_item)
    : M DiGraph :=
  let subdir := w_top it in
  let parent_path := abspath_path subdir in
  let parent_name := parent_name parent_path in
  do g1 <- (if has_node g parent_path then ret g
            else
              do parent_size <-
                get_folder_size clock parent_path (w_here it) deadline;
              ret (add_node g parent_path
                     (folder_attrs parent_name parent_size)));
  do g2 <- foldM (add_subdir deadline subdir parent_path) (w_dirs it) g1;
  foldM (add_file subdir parent_path) (w_files it) g2.

(** [deadline = time.monotonic() + max_seconds] when there is a positive
    budget. *)
Definition start_deadline (max_seconds : option Z) : M (option Z) :=
  match max_seconds with
  | Some m =>
      if Z.ltb 0 m then do now <- monotonic clock; ret (Some (now + m))
      else ret None
  | None => ret None
  end.

(** The dirs filter of the main walk: [d not in ignore_set]. *)
Definition not_ignored (ignore_set : gset string) (d : string) : bool :=
  bool_decide (d ∉ ignore_set).

(** [build_tree_json] up to the conversion: the root id and the graph. *)
Definition build_graph (fs : entry) (cwd : path) (dir_of_interest : string)
    (ignore : option ignore_arg) (max_seconds : option Z)
    : M (path * DiGraph) :=
  run print (Line "[INFO] Building tree-style JSON structure. This may take a while for large directories...");
  let dir_of_interest := abspath cwd dir_of_interest in
  let ignore_set := _normalize_ignores ignore in
  do deadline <- start_deadline max_seconds;
  do g <- foldM (visit deadline)
            (os_walk (not_ignored ignore_set) fs dir_of_interest) empty_graph;
  let root_id := abspath_path dir_of_interest in
  let g := if has_node g root_id then g
           else add_node g root_id
                  (Attrs (Some folder) (Some (basename root_id)) None) in
  ret (root_id, g).

Definition build_tree_json (fs : entry) (cwd : path) (dir_of_interest : string)
    (ignore : option ignore_arg) (max_seconds : option Z) : M (result tree) :=
  do rg <- build_graph fs cwd dir_of_interest ignore max_seconds;
  ret (tree_data rg.2 rg.1).

(** ** [write_tree_json]

    [os.makedirs] runs before the build, so the build sees the file system
    with the output directory in it.  [open(out_path, "w")] raises when
    [out_path] is a directory, and writes the document otherwise: the
    returned pair is the path of the written file and the document written
    there.  The file system after the write is not returned, nothing reads
    it. *)
Definition write_tree_json (fs : entry) (cwd : path) (dir_of_interest : string)
    (output_dir : option string) (filename : string)
    (ignore : option ignore_arg) (max_seconds : option Z)
    : M (result (path * tree)) :=
  run print (Line "[INFO] Saving JSON file. This may take a while for large directories...");
  let output_dir := from_option id dir_of_interest output_dir in
  let output_dir := abspath cwd output_dir in
  match makedirs output_dir fs with
  | None => ret (Raise (OSError output_dir))
  | Some fs =>
      do tree_data <- build_tree_json fs cwd dir_of_interest ignore max_seconds;
      let out_path := join output_dir filename in
      match tree_data with
      | Raise e => ret (Raise e)
      | Ok t =>
          if isdir fs out_path then ret (Raise (OSError out_path))
          else ret (Ok (out_path, t))
      end
  end.

(** ** [cli.main] *)

Record namespace := Namespace {
  args_path : string;
  args_output_dir : option string;
  args_ignore : option (list string);
  args_max_seconds : Z
}.

(** The banner (the block letters are not reproduced) and the rule that
    frames the welcome lines (drawn with a box character in the source). *)
Definition BANNER : string := "dir-to-graph".
Definition RULE : string := "=========================================================================================================".

(** [argparse] defaults: the current directory, no output directory, no
    ignore list, a budget of 15. *)
Definition default_args : namespace := Namespace "." None None 15.

(** What [main] prints before it parses its arguments, and what it prints
    before it looks at the target directory. *)
Definition welcome_lines : list message :=
  [Line BANNER; Line RULE; Line "";
   Line "Welcome! This project allows you to visualize directory structures as interactive graphs.";
   Line "This is still an experimental tool; please report any issues you encounter.";
   Line "Directories containing many big files may take a while to process.";
   Line ""; Line RULE].

Definition announce_lines (target_dir : path) : list message :=
  [Line "";
   Line ("Now, I will analyze your directory (" +:+ path_string target_dir +:+ ") and generate the visualization data...");
   Line ""].

Definition print_all (lines : list message) : M unit :=
  foldM (fun _ m => print m) lines tt.

Definition main (fs : entry) (cwd : path) (args : namespace)
    : M (result (path * tree)) :=
  run print_all welcome_lines;
  let target_dir := abspath cwd (args_path args) in
  run print_all (announce_lines target_dir);
  if negb (isdir fs target_dir)
  then ret (Raise (SystemExit "Not a directory: " target_dir))
  else
    let ignore := from_option id DEFAULT_IGNORES (args_ignore args) in
    let output_dir :=
      abspath cwd (from_option id (path_string cwd) (args_output_dir args)) in
    do r <- write_tree_json fs cwd (path_string target_dir)
              (Some (path_string output_dir)) "data.json"
              (Some (IgnoreIter ignore))
              (if bool_decide (args_max_seconds args ≠ 0)
                  && Z.ltb 0 (args_max_seconds args)
               then Some (args_max_seconds args) else None);
    match r with
    | Raise e => ret (Raise e)
    | Ok out =>
        run print_all
          [Line ("[INFO] Wrote directory structure as a JSON: " +:+ path_string out.1);
           Line "";
           Line "Next steps:";
           Line "  1.  python -m http.server 8000";
           Line "  2.  Open http://localhost:8000/index.html in your browser"];
        ret (Ok out)
    end.

End Builder.

(** ** The example of the specification: [A/a.txt] (4 bytes) and
    [A/B/b.txt] (6 bytes), with [A] directly below the root. *)

Definition example_A : entry :=
  Dir "A" true [File "a.txt" true (Some 4);
                Dir "B" true [File "b.txt" true (Some 6)]].

Definition example_fs : entry := Dir "" true [example_A].

(** * Specification-side definitions *)



Definition sum_list (l : list Z) : Z := fold_right Z.add 0 l.

(** What a listed file adds to a folder size: its size when it is a
    regular file whose size can be read, nothing otherwise. *)
Definition file_bytes (f : entry) : Z :=
  if isfile f then default 0 (getsize f) else 0.

(** What an entry adds to the size of a folder above it: a file adds its
    [file_bytes], a directory that can be listed adds what its entries add,
    a directory that cannot be listed adds nothing. *)
Fixpoint counted (e : entry) : Z :=
  match e with
  | File _ _ _ => file_bytes e
  | Dir _ l content => if l then sum_list (List.map counted content) else 0
  end.

(** The complete sum for the folder [e]. *)
Definition folder_bytes (e : entry) : Z :=
  if is_dir e then counted e else 0.

(** The readable bytes of the files listed in [items]. *)
Definition items_bytes (items : list walk_item) : Z :=
  sum_list (List.map (fun it => sum_list (List.map file_bytes (w_files it))) items).

(** Units of work of a size computation over [items]: one per directory
    entered and one per file examined. *)
Definition work_units (items : list walk_item) : nat :=
  fold_right (fun it n => (S (length (w_files it)) + n)%nat) O items.

(** Every action of the program only appends to the output and only moves
    the clock-read counter forward. *)
Definition extends (w w' : world) : Prop :=
  (ticks w ≤ ticks w')%nat ∧ stdout w `prefix_of` stdout w'.

Section SizeSpec.

Variable clock : nat → Z.

(** How many clock reads [k] units of work cost. *)
Definition checks (dl : option Z) (k : nat) : nat :=
  match dl with Some _ => k | None => O end.

(** The run went through [k] units of work from clock read [n0] on, and
    every check found the deadline not passed. *)
Definition completes (dl : option Z) (n0 k : nat) (w' : world) : Prop :=
  ticks w' = (n0 + checks dl k)%nat ∧
  ∀ d i, dl = Some d → (i < k)%nat → clock (n0 + i)%nat ≤ d.

(** The run stopped at the first check that found the deadline passed,
    which was one of the first [k] checks. *)
Definition aborts (dl : option Z) (n0 k : nat) (w' : world) : Prop :=
  ∃ d j, dl = Some d ∧ (j < k)%nat ∧ ticks w' = (n0 + j + 1)%nat ∧
         d < clock (n0 + j)%nat ∧
         ∀ i, (i < j)%nat → clock (n0 + i)%nat ≤ d.

End SizeSpec.

(** Both tables only grow, at their ends. *)
Definition grows (g g' : DiGraph) : Prop :=
  nodes g `prefix_of` nodes g' ∧ edges g `prefix_of` edges g'.

(** The shape every graph of the builder has: the first node is the root,
    every other node was added together with the edge from its parent
    directory, and every edge goes from a path to that path extended by one
    segment. *)
Record tree_shaped (r : path) (g : DiGraph) : Prop := TreeShaped {
  ts_ids : node_ids g = r :: (edges g).*2;
  ts_nodup : NoDup (node_ids g);
  ts_edges : ∀ u v, (u, v) ∈ edges g → u ∈ node_ids g ∧ ∃ x, v = u ++ [x]
}.

(** What both inner loops of [build_tree_json] do with a child [n] of
    [p]: add the node unless it is there, then the edge. *)
Definition attach (g : DiGraph) (p n : path) (a : attrs) : DiGraph :=
  add_edge (if has_node g n then g else add_node g n a) p n.

Definition extend (g : DiGraph) (p n : path) (a : attrs) : DiGraph :=
  Graph (nodes g ++ [(n, a)]) (edges g ++ [(p, n)]).

(** [located keep e0 rel e]: from the directory [e0], the path [rel] leads
    to [e] through directories that can be listed, and every directory on
    the way, [e] included, passes the filter [keep]. *)
Inductive located (keep : string → bool) : entry → path → entry → Prop :=
| located_here e : located keep e [] e
| located_child n content c rel e :
    c ∈ content →
    (is_dir c = true → keep (entry_name c) = true) →
    located keep c rel e →
    located keep (Dir n true content) (entry_name c :: rel) e.

Section GraphSpec.

Variable clock : nat → Z.
Variable dl : option Z.
Variable keep : string → bool.
Variable e0 : entry.
Variable r : path.

(** A folder size in the graph: the complete sum, or absent, and then
    some clock read was past the deadline. *)
Definition size_ok (e : entry) (s : option Z) : Prop :=
  (s = None ∧ ∃ d k, dl = Some d ∧ d < clock k) ∨ s = Some (folder_bytes e).

Definition attrs_ok (rel : path) (e : entry) (a : attrs) : Prop :=
  match e with
  | File nm _ sz => a = file_attrs nm sz
  | Dir nm _ _ =>
      ∃ s, size_ok e s ∧
           a = folder_attrs (match rel with [] => parent_name r | _ => nm end) s
  end.

(** A node of the graph stands for an entry located below the root and
    carries the attributes of that entry. *)
Definition node_ok (x : path * attrs) : Prop :=
  ∃ rel e, x.1 = r ++ rel ∧ located keep e0 rel e ∧ attrs_ok rel e x.2.

(** What the visit of an item leaves behind: an edge to every child, and a
    warning for every file whose size could not be read. *)
Definition item_done (it : walk_item) (g : DiGraph) (w : world) : Prop :=
  (∀ c, c ∈ w_dirs it ++ w_files it →
        (w_top it, join (w_top it) (entry_name c)) ∈ edges g) ∧
  (∀ f, f ∈ w_files it → getsize f = None →
        Warning (join (w_top it) (entry_name f)) ∈ stdout w).

Definition loop_inv (top : path) (g : DiGraph) : Prop :=
  tree_shaped r g ∧ Forall node_ok (nodes g) ∧ top ∈ node_ids g.

End GraphSpec.

(** Whether the walk of the root yields anything. *)
Definition walkable (e : option entry) : bool :=
  match e with Some (Dir _ true _) => true | _ => false end.

(** The defensive root node of a walk that yields nothing. *)
Definition bare_root (root : path) : DiGraph :=
  Graph [(root, Attrs (Some folder) (Some (basename root)) None)] [].

(** What holds of the graph that [build_tree_json] converts. *)
Record built (clock : nat → Z) (fs : entry) (ignore_set : gset string)
    (root : path) (dl : option Z) (g : DiGraph) (w' : world) : Prop := Built {
  built_shaped : tree_shaped root g;
  built_bare : walkable (resolve fs root) = false → g = bare_root root;
  built_nodes : ∀ e0, resolve fs root = Some e0 → walkable (Some e0) = true →
      Forall (node_ok clock dl (not_ignored ignore_set) e0 root) (nodes g);
  built_done :
      Forall (fun it => item_done it g w')
        (os_walk (not_ignored ignore_set) fs root)
}.

Definition grow_component (g : DiGraph) (seen : list path) : list path :=
  remove_dups (seen ++ List.flat_map (neighbours g) seen).

(** All nodes of a document, parents first. *)
Fixpoint subtrees (t : tree) : list tree :=
  match t with
  | Node _ _ children => t :: List.flat_map subtrees children
  end.

Definition tree_ids (t : tree) : list path := tree_id <$> subtrees t.

(** The parent/child pairs of a document. *)
Definition tree_edges (t : tree) : list (path * path) :=
  List.flat_map
    (fun s => (fun c => (tree_id s, tree_id c)) <$> tree_children s)
    (subtrees t).

(** A node of the document shows a node of the graph and its successors. *)
Definition faithful (g : DiGraph) (s : tree) : Prop :=
  node_attrs g (tree_id s) = Some (tree_attrs s) ∧
  tree_id <$> tree_children s = successors g (tree_id s).

(** The names in a directory are pairwise distinct. *)
Fixpoint wf_entry (e : entry) : bool :=
  match e with
  | File _ _ _ => true
  | Dir _ _ content =>
      bool_decide (NoDup (entry_name <$> content)) && forallb wf_entry content
  end.




(** A clock that advances by one tick per read, and one that advances by
    ten. *)
Definition tick_clock (n : nat) : Z := Z.of_nat n.
Definition fast_clock (n : nat) : Z := 10 * Z.of_nat n.

(** The failing input of C3: a folder that cannot be listed, below the
    root [A]. *)
Definition locked_fs : entry :=
  Dir "" true [Dir "A" true [Dir "locked" false [File "secret" true (Some 7)]]].

(** The example of C6: the root directory is called [venv], a default
    ignore name, and holds a file called [bin], another one. *)
Definition venv_fs : entry :=
  Dir "" true [Dir "venv" true [File "bin" true (Some 3)]].

(** What [main] prints before it looks at the root path. *)
Definition opening_lines (target_dir : path) : list message :=
  welcome_lines ++ announce_lines target_dir.

(** The example of C2: [a.txt] cannot be read. *)
Definition unreadable_fs : entry :=
  Dir "" true [Dir "A" true [File "a.txt" true None;
                             File "c.txt" true (Some 5)]].





(** The graph of a build is the graph of the main loop, with the defensive
    root node when the loop added none. *)
Definition with_root (root : path) (g : DiGraph) : DiGraph :=
  if has_node g root then g
  else add_node g root (Attrs (Some folder) (Some (basename root)) None).


(** * Definitions for the further properties *)



(** The warnings of a size computation that runs to its end: one for each
    listed regular file whose size cannot be read, in the order of the
    walk. *)
Definition file_warnings (root : path) (files : list entry) : list message :=
  List.flat_map
    (fun f => if isfile f && bool_decide (getsize f = None)
              then [Warning (join root (entry_name f))] else [])
    files.

Definition size_warnings (items : list walk_item) : list message :=
  List.flat_map (fun it => file_warnings (w_top it) (w_files it)) items.

(** An action that makes no clock read. *)
Definition keeps_ticks {A} (c : M A) : Prop :=
  ∀ w, ticks (c w).2 = ticks w.

(** What [main] prints once the document has been written to [out]. *)
Definition closing_lines (out : path) : list message :=
  [Line ("[INFO] Wrote directory structure as a JSON: " +:+ path_string out);
   Line "";
   Line "Next steps:";
   Line "  1.  python -m http.server 8000";
   Line "  2.  Open http://localhost:8000/index.html in your browser"].

(** The budget that reaches [build_tree_json] from the command line: the
    value of [--max-seconds] when it is positive, none otherwise. *)
Definition budget_of (args : namespace) : option Z :=
  if Z.ltb 0 (args_max_seconds args) then Some (args_max_seconds args)
  else None.

(** The ignore list that reaches [build_tree_json] from the command line. *)
Definition ignore_of (args : namespace) : option ignore_arg :=
  Some (IgnoreIter (from_option id DEFAULT_IGNORES (args_ignore args))).

(** The output directory as [write_tree_json] has it from [main]: made
    absolute by [main], and once more by [write_tree_json]. *)
Definition output_dir_of (cwd : path) (args : namespace) : path :=
  abspath cwd
    (path_string
       (abspath cwd (from_option id (path_string cwd) (args_output_dir args)))).

(** The state in which [main] starts the build. *)
Definition build_start (cwd : path) (args : namespace) (w : world) : world :=
  World (ticks w)
    (stdout w ++ opening_lines (abspath cwd (args_path args)) ++
     [Line "[INFO] Saving JSON file. This may take a while for large directories..."]).

(** ** [build_dod]

    The dictionary of dictionaries is used as a map: a finite map from
    directory names to finite maps from child names to metadata; the order
    of its keys is not kept.  [build_dod] does not make its argument
    absolute; the embedding takes it absolute and normalised, which is how
    [os.walk] then reports every directory. *)

Record meta := Meta { meta_type : kind; meta_size : option Z }.

Abbreviation dod := (gmap string (gmap string meta)) (only parsing).

(** [dod.setdefault(parent, {})]. *)
Definition dod_setdefault (d : dod) (parent : string) : dod :=
  match d !! parent with
  | Some _ => d
  | None => <[parent := ∅]> d
  end.

(** [dod[parent][child] = m]; [None] stands for the [KeyError] of
    [dod[parent]]. *)
Definition dod_put (d : dod) (parent child : string) (m : meta) : option dod :=
  match d !! parent with
  | Some inner => Some (<[parent := <[child := m]> inner]> d)
  | None => None
  end.

(** A loop whose body can raise. *)
Fixpoint foldM_try {A B} (f : B → A → M (option B)) (l : list A) (b : B)
    : M (option B) :=
  match l with
  | [] => ret (Some b)
  | x :: l' =>
      do r <- f b x;
      match r with
      | Some b' => foldM_try f l' b'
      | None => ret None
      end
  end.

Section Dod.

Variable clock : nat → Z.

(** One round of [for d in dirs]; [get_folder_size] is called without a
    deadline. *)
Definition dod_add_subdir (subdir : path) (parent : string) (d : dod)
    (c : entry) : M (option dod) :=
  let folder_path := join subdir (entry_name c) in
  do folder_size <- get_folder_size clock folder_path c None;
  ret (dod_put d parent (entry_name c) (Meta folder folder_size)).

(** One round of [for file_name in files]. *)
Definition dod_add_file (subdir : path) (parent : string) (d : dod)
    (f : entry) : M (option dod) :=
  let full_path := join subdir (entry_name f) in
  do size <- try_getsize full_path f;
  ret (dod_put d parent (entry_name f) (Meta file size)).

(** The body of [for subdir, dirs, files in os.walk(dir_of_interest)]. *)
Definition dod_visit (d : dod) (it : walk_item) : M (option dod) :=
  let subdir := w_top it in
  let parent := parent_name subdir in
  let d := dod_setdefault d parent in
  do r <- foldM_try (dod_add_subdir subdir parent) (w_dirs it) d;
  match r with
  | Some d' => foldM_try (dod_add_file subdir parent) (w_files it) d'
  | None => ret None
  end.

Definition build_dod (fs : entry) (dir_of_interest : path)
    (ignore : option ignore_arg) : M (option dod) :=
  run print (Line "[INFO] Building dictionary-of-dictionaries representation. This step may take a while for large directories...");
  let ignore_set := _normalize_ignores ignore in
  foldM_try dod_visit (os_walk (not_ignored ignore_set) fs dir_of_interest) ∅.

End Dod.

(** The metadata of a listed child: a directory with its complete folder
    size, anything else with what [os.path.getsize] answers. *)
Definition meta_of (c : entry) : meta :=
  if is_dir c then Meta folder (Some (folder_bytes c))
  else Meta file (getsize c).

(** The children that the visits of [items] record, each with the key of
    its parent, and the keys these visits create. *)
Definition recorded (items : list walk_item) : list (string * entry) :=
  List.flat_map
    (fun it => pair (parent_name (w_top it)) <$> (w_dirs it ++ w_files it))
    items.

Definition dod_keys (items : list walk_item) : list string :=
  (fun it => parent_name (w_top it)) <$> items.

(** [d] has the keys [ks]; every child of [es] has an entry under the key
    of its parent; and every entry is the metadata of such a child. *)
Definition dod_holds (ks : list string) (es : list (string * entry))
    (d : dod) : Prop :=
  (∀ k, is_Some (d !! k) ↔ k ∈ ks) ∧
  (∀ k c, (k, c) ∈ es →
     ∃ inner, d !! k = Some inner ∧ is_Some (inner !! entry_name c)) ∧
  (∀ k inner nm m, d !! k = Some inner → inner !! nm = Some m →
     ∃ c, (k, c) ∈ es ∧ entry_name c = nm ∧ m = meta_of c).

(** [add_edge] on the list of edges: a pair that is there already is not
    added again. *)
Definition push_edge (es : list (path * path)) (e : path * path)
    : list (path * path) :=
  if bool_decide (e ∈ es) then es else es ++ [e].

(** The edges that the visit of an item asks for, in order: to the kept
    subdirectories, then to the files. *)
Definition item_edges (it : walk_item) : list (path * path) :=
  (fun c => (w_top it, join (w_top it) (entry_name c))) <$>
  (w_dirs it ++ w_files it).

(** The edges that leave [u]. *)
Definition from_node (u : path) (e : path * path) : bool :=
  bool_decide (e.1 = u).

(** What the walk lists below an entry: for a directory that can be
    listed, its subdirectories that pass the filter, then its other
    entries, each group in the order of the listing; nothing otherwise. *)
Definition kept_listing (keep : string → bool) (e : entry) : list entry :=
  match e with
  | Dir _ true content => subdirs keep content ++ nondirs content
  | _ => []
  end.



(** * Proofs *)

(** ** Paths and their text

    [abspath_path] stands for [os.path.abspath] on paths that are absolute
    and normalised already.  What justifies it: the text of a path with
    clean segments denotes that path again, and the paths that [abspath]
    returns have clean segments. *)

















(** ** Induction on entries *)

Lemma entry_ind' (P : entry → Prop) :
  (∀ n r sz, P (File n r sz)) →
  (∀ n l content, Forall P content → P (Dir n l content)) →
  ∀ e, P e.
Proof.
  intros HF HD. fix IH 1. intros [n r sz | n l content].
  - apply HF.
  - apply HD. induction content as [| c content IHc]; constructor.
    + apply IH.
    + apply IHc.
Qed.

(** ** The monad *)

Lemma foldM_app {A B} (f : B → A → M B) l1 l2 b w :
  foldM f (l1 ++ l2) b w =
  let (b', w') := foldM f l1 b w in foldM f l2 b' w'.
Proof.
  revert b w. induction l1 as [| x l1 IH]; intros b w; simpl.
  - reflexivity.
  - unfold bind. destruct (f b x w) as [b1 w1]. apply IH.
Qed.

Lemma extends_refl w : extends w w.
Proof. split; [lia | reflexivity]. Qed.

Lemma extends_trans w1 w2 w3 : extends w1 w2 → extends w2 w3 → extends w1 w3.
Proof. intros [? ?] [? ?]. split; [lia | etrans; eauto]. Qed.

Lemma extends_print m w : extends w (print m w).2.
Proof. split; simpl; [lia | by apply prefix_app_r]. Qed.

Lemma extends_stdout w w' m : extends w w' → m ∈ stdout w → m ∈ stdout w'.
Proof. intros [_ [k ->]] Hm. apply elem_of_app. by left. Qed.

(** ** The walk of a size computation reaches every counted file *)

Lemma sum_list_app l1 l2 : sum_list (l1 ++ l2) = sum_list l1 + sum_list l2.
Proof. induction l1 as [| x l1 IH]; simpl; lia. Qed.

Lemma items_bytes_cons it items :
  items_bytes (it :: items) =
  sum_list (List.map file_bytes (w_files it)) + items_bytes items.
Proof. reflexivity. Qed.

Lemma items_bytes_app l1 l2 :
  items_bytes (l1 ++ l2) = items_bytes l1 + items_bytes l2.
Proof.
  unfold items_bytes. by rewrite List.map_app, sum_list_app.
Qed.

Lemma work_units_app l1 l2 :
  work_units (l1 ++ l2) = (work_units l1 + work_units l2)%nat.
Proof. induction l1 as [| x l1 IH]; simpl; lia. Qed.

Lemma walk_dir_unfold keep top n content :
  walk keep top (Dir n true content) =
  WalkItem top (Dir n true content) (subdirs keep content) (nondirs content) ::
  List.flat_map
    (fun c => if is_dir c && keep (entry_name c)
              then walk keep (join top (entry_name c)) c else [])
    content.
Proof. reflexivity. Qed.

Lemma walk_all_bytes top e :
  items_bytes (walk (fun _ => true) top e) = folder_bytes e.
Proof.
  revert top. induction e as [n r sz | n l content IH] using entry_ind';
    intros top; [done |].
  destruct l; [| done]. rewrite walk_dir_unfold, items_bytes_cons.
  unfold folder_bytes. cbn [is_dir counted w_files].
  unfold nondirs, sum_list.
  induction IH as [| c content Hc _ IHcontent]; [done |].
  cbn [List.flat_map List.map fold_right List.filter].
  rewrite items_bytes_app.
  destruct c as [cn cr csz | cn cl ccontent].
  - cbn [is_dir negb andb List.map fold_right counted].
    change (items_bytes []) with 0. lia.
  - specialize (Hc (join top cn)). unfold folder_bytes in Hc.
    cbn [is_dir negb andb entry_name] in *. lia.
Qed.

Section SizeProofs.

Variable clock : nat → Z.

Lemma extends_expired dl w : extends w (expired clock dl w).2.
Proof.
  destruct dl as [d |]; simpl; [| apply extends_refl].
  split; simpl; [lia | reflexivity].
Qed.

Lemma expired_cases dl w :
  (∃ d, dl = Some d ∧ d < clock (ticks w) ∧
        expired clock dl w = (true, World (S (ticks w)) (stdout w))) ∨
  (expired clock dl w = (false, World (ticks w + checks dl 1) (stdout w)) ∧
   ∀ d, dl = Some d → clock (ticks w) ≤ d).
Proof.
  destruct dl as [d |]; simpl.
  - unfold bind, monotonic, ret; simpl.
    destruct (Z.ltb_spec d (clock (ticks w))).
    + left. exists d. auto.
    + right. split; [by rewrite Nat.add_1_r | intros ? [= <-]; lia].
  - right. unfold ret. split; [| done].
    destruct w; simpl. by rewrite Nat.add_0_r.
Qed.

Lemma completes_shift dl n0 k w1 w' :
  (∀ d, dl = Some d → clock n0 ≤ d) →
  completes clock dl (n0 + checks dl 1) k w' →
  ticks w1 = (n0 + checks dl 1)%nat →
  completes clock dl n0 (S k) w'.
Proof.
  unfold completes, checks. intros H0 [Ht Hc] _. destruct dl as [d |].
  - split; [lia |]. intros d' i [= <-] Hi.
    destruct i as [| i]; [rewrite Nat.add_0_r; auto |].
    replace (n0 + S i)%nat with (n0 + 1 + i)%nat by lia.
    apply (Hc d); [done | lia].
  - split; [lia | done].
Qed.

Lemma aborts_shift dl n0 k w' :
  (∀ d, dl = Some d → clock n0 ≤ d) →
  aborts clock dl (n0 + checks dl 1) k w' →
  aborts clock dl n0 (S k) w'.
Proof.
  intros H0 (d & j & -> & Hj & Ht & Hlate & Hbefore). simpl in *.
  exists d, (S j). split_and!; [done | lia | lia | |].
  - by replace (n0 + S j)%nat with (n0 + 1 + j)%nat by lia.
  - intros [| i] Hi; [rewrite Nat.add_0_r; auto |].
    replace (n0 + S i)%nat with (n0 + 1 + i)%nat by lia. apply Hbefore. lia.
Qed.

Lemma aborts_now dl d n0 k w' :
  dl = Some d → d < clock n0 → ticks w' = S n0 → aborts clock dl n0 (S k) w'.
Proof.
  intros -> Hlate Ht. exists d, O.
  split_and!; [done | lia | lia | by rewrite Nat.add_0_r | lia].
Qed.

Lemma scan_files_cons dl root f files total w :
  scan_files clock dl root (f :: files) total w =
  match expired clock dl w with
  | (true, w1) => (None, w1)
  | (false, w1) =>
      if isfile f then
        match getsize f with
        | Some n => scan_files clock dl root files (total + n) w1
        | None =>
            scan_files clock dl root files total
              (print (Warning (join root (entry_name f))) w1).2
        end
      else scan_files clock dl root files total w1
  end.
Proof.
  cbn [scan_files]. unfold bind at 1.
  destruct (expired clock dl w) as [[] w1]; [done |].
  destruct (isfile f); [| done]. by destruct (getsize f).
Qed.

(** The inner loop: either every file was examined and the readable ones
    were added, or the loop stopped at the first late check. *)
Lemma scan_files_spec dl root files total w r w' :
  scan_files clock dl root files total w = (r, w') →
  extends w w' ∧
  ((r = Some (total + sum_list (List.map file_bytes files)) ∧
    completes clock dl (ticks w) (length files) w') ∨
   (r = None ∧ aborts clock dl (ticks w) (length files) w')).
Proof.
  revert total w. induction files as [| f files IH]; intros total w.
  - intros [= <- <-]. split; [apply extends_refl |]. left. simpl.
    split; [f_equal; lia |]. split; [destruct dl; simpl; lia | intros; lia].
  - rewrite scan_files_cons.
    destruct (expired_cases dl w) as [(d & -> & Hlate & ->) | [-> Hok]].
    + intros [= <- <-]. split; [split; simpl; [lia | reflexivity] |].
      right. split; [done |]. by eapply aborts_now.
    + set (w1 := World (ticks w + checks dl 1) (stdout w)).
      assert (Hgo : ∀ total' w2, ticks w2 = ticks w1 → extends w1 w2 →
        total + file_bytes f = total' →
        scan_files clock dl root files total' w2 = (r, w') →
        extends w w' ∧
        ((r = Some (total + sum_list (List.map file_bytes (f :: files))) ∧
          completes clock dl (ticks w) (length (f :: files)) w') ∨
         (r = None ∧ aborts clock dl (ticks w) (length (f :: files)) w'))).
      { intros total' w2 Ht Hext Htot Hrun.
        assert (Hw1 : extends w w1) by (split; simpl; [lia | reflexivity]).
        destruct (IH _ _ Hrun) as [Hx [[Hr Hc] | [Hr Ha]]].
        - split; [eauto using extends_trans |]. left. split.
          + rewrite Hr. simpl. f_equal. lia.
          + rewrite Ht in Hc. by eapply completes_shift.
        - split; [eauto using extends_trans |]. right. split; [done |].
          rewrite Ht in Ha. by apply aborts_shift. }
      unfold file_bytes in Hgo.
      destruct (isfile f); [destruct (getsize f) as [z |] |]; simpl in Hgo.
      * apply Hgo; [done | apply extends_refl | done].
      * apply Hgo; [done | apply (extends_print _ w1) | lia].
      * apply Hgo; [done | apply extends_refl | lia].
Qed.

Lemma completes_one dl w :
  (∀ d, dl = Some d → clock (ticks w) ≤ d) →
  completes clock dl (ticks w) 1 (World (ticks w + checks dl 1) (stdout w)).
Proof.
  intros H. split; [done |]. intros d i Hd Hi.
  replace i with O by lia. rewrite Nat.add_0_r. auto.
Qed.

Lemma completes_app dl n0 k1 k2 w1 w2 :
  completes clock dl n0 k1 w1 → completes clock dl (ticks w1) k2 w2 →
  completes clock dl n0 (k1 + k2) w2.
Proof.
  unfold completes, checks. intros [Ht1 H1] [Ht2 H2]. destruct dl as [d |].
  - split; [lia |]. intros d' i Hd Hi.
    destruct (decide (i < k1)%nat) as [Hlt | Hge]; [eauto |].
    replace (n0 + i)%nat with (ticks w1 + (i - k1))%nat by lia.
    apply H2; [done | lia].
  - split; [lia | done].
Qed.

Lemma completes_aborts dl n0 k1 k2 w1 w2 :
  completes clock dl n0 k1 w1 → aborts clock dl (ticks w1) k2 w2 →
  aborts clock dl n0 (k1 + k2) w2.
Proof.
  intros [Ht1 H1] (d & j & -> & Hj & Ht & Hlate & Hbefore).
  unfold checks in Ht1. exists d, (k1 + j)%nat.
  split_and!; [done | lia | lia | |].
  - by replace (n0 + (k1 + j))%nat with (ticks w1 + j)%nat by lia.
  - intros i Hi. destruct (decide (i < k1)%nat) as [Hlt | Hge]; [eauto |].
    replace (n0 + i)%nat with (ticks w1 + (i - k1))%nat by lia.
    apply Hbefore. lia.
Qed.

Lemma aborts_weaken dl n0 k1 k2 w' :
  aborts clock dl n0 k1 w' → aborts clock dl n0 (k1 + k2) w'.
Proof.
  intros (d & j & -> & Hj & Ht & Hlate & Hbefore).
  exists d, j. split_and!; auto. lia.
Qed.

Lemma scan_items_cons dl it items total w :
  scan_items clock dl (it :: items) total w =
  match expired clock dl w with
  | (true, w1) => (None, w1)
  | (false, w1) =>
      match scan_files clock dl (w_top it) (w_files it) total w1 with
      | (None, w2) => (None, w2)
      | (Some total', w2) => scan_items clock dl items total' w2
      end
  end.
Proof.
  cbn [scan_items]. unfold bind at 1.
  destruct (expired clock dl w) as [[] w1]; [done |].
  unfold bind.
  by destruct (scan_files clock dl (w_top it) (w_files it) total w1) as [[] ?].
Qed.

(** The outer loop, likewise. *)
Lemma scan_items_spec dl items total w r w' :
  scan_items clock dl items total w = (r, w') →
  extends w w' ∧
  ((r = Some (total + items_bytes items) ∧
    completes clock dl (ticks w) (work_units items) w') ∨
   (r = None ∧ aborts clock dl (ticks w) (work_units items) w')).
Proof.
  revert total w. induction items as [| it items IH]; intros total w.
  - intros [= <- <-]. split; [apply extends_refl |]. left.
    unfold items_bytes. simpl.
    split; [f_equal; lia |]. split; [destruct dl; simpl; lia | intros; lia].
  - rewrite scan_items_cons.
    destruct (expired_cases dl w) as [(d & -> & Hlate & ->) | [-> Hok]].
    + intros [= <- <-]. split; [split; simpl; [lia | reflexivity] |].
      right. split; [done |]. by eapply aborts_now.
    + pose proof (completes_one dl w Hok) as Hone.
      set (w1 := World (ticks w + checks dl 1) (stdout w)) in *.
      assert (Hw1 : extends w w1) by (split; simpl; [lia | reflexivity]).
      destruct (scan_files clock dl (w_top it) (w_files it) total w1)
        as [rf w2] eqn:Hfiles.
      destruct (scan_files_spec _ _ _ _ _ _ _ Hfiles)
        as [Hx2 [[-> Hc2] | [-> Ha2]]].
      * intros Hrest. destruct (IH _ _ Hrest) as [Hx3 [[-> Hc3] | [-> Ha3]]].
        -- split; [eauto using extends_trans |]. left. split.
           ++ unfold items_bytes. simpl. f_equal. lia.
           ++ change (work_units (it :: items))
                with (1 + (length (w_files it) + work_units items))%nat.
              eapply completes_app; [done |].
              eapply completes_app; eauto.
        -- split; [eauto using extends_trans |]. right. split; [done |].
           change (work_units (it :: items))
             with (1 + (length (w_files it) + work_units items))%nat.
           eapply completes_aborts; [done |].
           eapply completes_aborts; eauto.
      * intros [= <- <-]. split; [eauto using extends_trans |].
        right. split; [done |].
        change (work_units (it :: items))
          with (1 + (length (w_files it) + work_units items))%nat.
        eapply completes_aborts; [done |]. by apply aborts_weaken.
Qed.

(** [get_folder_size]: the complete sum, or [None] at the first check that
    finds the deadline passed. *)
Lemma get_folder_size_spec dl path e w r w' :
  get_folder_size clock path e dl w = (r, w') →
  extends w w' ∧
  ((r = Some (folder_bytes e) ∧
    completes clock dl (ticks w) (work_units (walk (fun _ => true) path e)) w') ∨
   (r = None ∧
    aborts clock dl (ticks w) (work_units (walk (fun _ => true) path e)) w')).
Proof.
  unfold get_folder_size. intros Hrun.
  destruct (scan_items_spec _ _ _ _ _ _ Hrun) as [Hx H].
  by rewrite walk_all_bytes, Z.add_0_l in H.
Qed.

Lemma get_folder_size_cases dl path e w :
  ((get_folder_size clock path e dl w).1 = None ∧
   ∃ d k, dl = Some d ∧ d < clock k) ∨
  (get_folder_size clock path e dl w).1 = Some (folder_bytes e).
Proof.
  destruct (get_folder_size clock path e dl w) as [r w'] eqn:Hrun.
  destruct (get_folder_size_spec _ _ _ _ _ _ Hrun)
    as [_ [[-> _] | [-> (d & j & -> & _ & _ & Hlate & _)]]]; simpl; eauto 10.
Qed.

Lemma get_folder_size_extends dl path e w :
  extends w (get_folder_size clock path e dl w).2.
Proof.
  destruct (get_folder_size clock path e dl w) as [r w'] eqn:Hrun.
  by destruct (get_folder_size_spec _ _ _ _ _ _ Hrun).
Qed.

(** A directory that cannot be listed: no check is made, the size is 0. *)
Lemma get_folder_size_unlistable dl path n content w :
  get_folder_size clock path (Dir n false content) dl w = (Some 0, w).
Proof. reflexivity. Qed.

(** A directory that can be listed, after the deadline: the first check
    already returns [None]. *)
Lemma get_folder_size_late d path n content w :
  d < clock (ticks w) →
  (get_folder_size clock path (Dir n true content) (Some d) w).1 = None.
Proof.
  intros Hlate.
  destruct (get_folder_size clock _ _ _ w) as [r w'] eqn:Hrun.
  destruct (get_folder_size_spec _ _ _ _ _ _ Hrun)
    as [_ [[_ [_ Hc]] | [-> _]]]; [| done].
  specialize (Hc d O eq_refl). rewrite walk_dir_unfold in Hc. simpl in Hc.
  rewrite Nat.add_0_r in Hc. lia.
Qed.

End SizeProofs.

(** ** Graphs that are trees below a root *)

Lemma grows_refl g : grows g g.
Proof. split; reflexivity. Qed.

Lemma grows_trans g1 g2 g3 : grows g1 g2 → grows g2 g3 → grows g1 g3.
Proof. intros [? ?] [? ?]. split; etrans; eauto. Qed.

Lemma grows_node g g' n : grows g g' → n ∈ node_ids g → n ∈ node_ids g'.
Proof.
  intros [[k Hk] _]. unfold node_ids. rewrite Hk, fmap_app, elem_of_app. auto.
Qed.

Lemma grows_node_attrs g g' x : grows g g' → x ∈ nodes g → x ∈ nodes g'.
Proof. intros [[k ->] _]. rewrite elem_of_app. auto. Qed.

Lemma grows_edge g g' e : grows g g' → e ∈ edges g → e ∈ edges g'.
Proof. intros [_ [k ->]]. rewrite elem_of_app. auto. Qed.

Lemma has_node_true g n : has_node g n = true ↔ n ∈ node_ids g.
Proof. unfold has_node. by rewrite bool_decide_eq_true. Qed.

Lemma has_node_false g n : has_node g n = false ↔ n ∉ node_ids g.
Proof. unfold has_node. by rewrite bool_decide_eq_false. Qed.

Lemma ts_target r g u v :
  tree_shaped r g → (u, v) ∈ edges g → v ∈ node_ids g.
Proof.
  intros Hg Huv. rewrite (ts_ids _ _ Hg). apply elem_of_cons. right.
  apply list_elem_of_fmap. by exists (u, v).
Qed.

Lemma ts_parent_edge r g n :
  tree_shaped r g → n ∈ node_ids g → n ≠ r →
  ∃ u x, n = u ++ [x] ∧ (u, n) ∈ edges g ∧ u ∈ node_ids g.
Proof.
  intros Hg Hn Hne. rewrite (ts_ids _ _ Hg) in Hn.
  apply elem_of_cons in Hn as [? | Hn]; [done |].
  apply list_elem_of_fmap in Hn as ([u v] & -> & Huv). simpl.
  destruct (ts_edges _ _ Hg _ _ Huv) as [Hu [x ->]]. eauto.
Qed.

Lemma ts_below r g n :
  tree_shaped r g → n ∈ node_ids g → ∃ rel, n = r ++ rel.
Proof.
  intros Hg. induction n as [| y n IH] using rev_ind; intros Hn.
  - destruct (decide ([] = r)) as [<- | Hne]; [by exists [] |].
    destruct (ts_parent_edge _ _ _ Hg Hn Hne) as (u & x & Hux & _).
    by destruct u.
  - destruct (decide (n ++ [y] = r)) as [<- | Hne].
    { exists []. by rewrite app_nil_r. }
    destruct (ts_parent_edge _ _ _ Hg Hn Hne) as (u & x & Hux & _ & Hu).
    apply app_inj_tail in Hux as [-> ->].
    destruct (IH Hu) as [rel ->]. exists (rel ++ [x]). by rewrite app_assoc.
Qed.

Lemma ts_root r g : tree_shaped r g → r ∈ node_ids g.
Proof. intros Hg. rewrite (ts_ids _ _ Hg). apply elem_of_cons. by left. Qed.

Lemma ts_child_not_root r g p x : tree_shaped r g → p ∈ node_ids g → p ++ [x] ≠ r.
Proof.
  intros Hg Hp. destruct (ts_below _ _ _ Hg Hp) as [rel ->].
  intros Heq. apply (f_equal length) in Heq.
  rewrite !length_app in Heq. simpl in Heq. lia.
Qed.

(** The root has no parent. *)
Lemma ts_root_no_parent r g u : tree_shaped r g → (u, r) ∉ edges g.
Proof.
  intros Hg Hu. destruct (ts_edges _ _ Hg _ _ Hu) as [Hin [x Hx]].
  by eapply ts_child_not_root.
Qed.

Lemma ts_size r g :
  tree_shaped r g → number_of_nodes g = (number_of_edges g + 1)%nat.
Proof.
  intros Hg. unfold number_of_nodes, number_of_edges.
  pose proof (f_equal length (ts_ids _ _ Hg)) as H.
  unfold node_ids in H. rewrite length_fmap in H. simpl in H.
  rewrite length_fmap in H. lia.
Qed.

(** *** Adding a child below a node that is there *)

Lemma add_node_fresh g n a :
  n ∉ node_ids g → add_node g n a = Graph (nodes g ++ [(n, a)]) (edges g).
Proof. intros Hn. unfold add_node. by rewrite (proj2 (has_node_false g n)). Qed.

Lemma add_edge_known g u v :
  u ∈ node_ids g → v ∈ node_ids g → (u, v) ∈ edges g → add_edge g u v = g.
Proof.
  intros Hu Hv Huv. unfold add_edge.
  rewrite (proj2 (has_node_true g u)), (proj2 (has_node_true g v)) by done.
  unfold has_edge. by rewrite bool_decide_eq_true_2.
Qed.

Lemma add_edge_new g u v :
  u ∈ node_ids g → v ∈ node_ids g → (u, v) ∉ edges g →
  add_edge g u v = Graph (nodes g) (edges g ++ [(u, v)]).
Proof.
  intros Hu Hv Huv. unfold add_edge.
  rewrite (proj2 (has_node_true g u)), (proj2 (has_node_true g v)) by done.
  unfold has_edge. by rewrite bool_decide_eq_false_2.
Qed.

Lemma attach_known r g p x a :
  tree_shaped r g → p ∈ node_ids g → p ++ [x] ∈ node_ids g →
  attach g p (p ++ [x]) a = g.
Proof.
  intros Hg Hp Hn. unfold attach.
  rewrite (proj2 (has_node_true g _)) by done.
  apply add_edge_known; [done | done |].
  destruct (ts_parent_edge _ _ _ Hg Hn) as (u & y & Huy & Hedge & _).
  { by eapply ts_child_not_root. }
  by apply app_inj_tail in Huy as [<- _].
Qed.

Lemma attach_fresh r g p x a :
  tree_shaped r g → p ∈ node_ids g → p ++ [x] ∉ node_ids g →
  attach g p (p ++ [x]) a = extend g p (p ++ [x]) a.
Proof.
  intros Hg Hp Hn. unfold attach.
  rewrite (proj2 (has_node_false g _)) by done.
  rewrite add_node_fresh by done.
  rewrite add_edge_new; [done | | |]; unfold node_ids; simpl.
  - rewrite fmap_app, elem_of_app. by left.
  - rewrite fmap_app, elem_of_app. right. simpl. apply list_elem_of_singleton.
    done.
  - intros Hedge. apply Hn. by eapply ts_target.
Qed.

Lemma extend_shaped r g p x a :
  tree_shaped r g → p ∈ node_ids g → p ++ [x] ∉ node_ids g →
  tree_shaped r (extend g p (p ++ [x]) a).
Proof.
  intros Hg Hp Hn. split; unfold node_ids; simpl.
  - rewrite !fmap_app. simpl. fold (node_ids g). by rewrite (ts_ids _ _ Hg).
  - rewrite fmap_app. simpl. fold (node_ids g). apply NoDup_app.
    split; [by apply (ts_nodup r) |]. split.
    + intros y Hy Hy'. apply list_elem_of_singleton in Hy' as ->. done.
    + apply NoDup_singleton.
  - intros u v Huv. rewrite fmap_app, elem_of_app. fold (node_ids g).
    apply elem_of_app in Huv as [Huv | Huv].
    + destruct (ts_edges _ _ Hg _ _ Huv) as [Hu Hx]. auto.
    + apply list_elem_of_singleton in Huv as [= -> ->]. eauto.
Qed.

Lemma extend_grows g p n a : grows g (extend g p n a).
Proof. split; simpl; by apply prefix_app_r. Qed.

Lemma attach_cases r g p x a :
  tree_shaped r g → p ∈ node_ids g →
  (p ++ [x] ∈ node_ids g ∧ attach g p (p ++ [x]) a = g) ∨
  ((p ++ [x] ∉ node_ids g) ∧ attach g p (p ++ [x]) a = extend g p (p ++ [x]) a).
Proof.
  intros Hg Hp. destruct (decide (p ++ [x] ∈ node_ids g)) as [Hn | Hn].
  - left. split; [done |]. by eapply attach_known.
  - right. split; [done |]. by eapply attach_fresh.
Qed.

(** After [attach] the edge is there, whichever case applied. *)
Lemma attach_edge r g p x a :
  tree_shaped r g → p ∈ node_ids g →
  (p, p ++ [x]) ∈ edges (attach g p (p ++ [x]) a).
Proof.
  intros Hg Hp. destruct (attach_cases r g p x a Hg Hp) as [[Hn ->] | [Hn ->]].
  - destruct (ts_parent_edge _ _ _ Hg Hn) as (u & y & Huy & Hedge & _).
    { by eapply ts_child_not_root. }
    by apply app_inj_tail in Huy as [<- _].
  - simpl. apply elem_of_app. right. by apply list_elem_of_singleton.
Qed.

Lemma add_edge_attach_known r g p x :
  tree_shaped r g → p ∈ node_ids g → has_node g (p ++ [x]) = true →
  add_edge g p (p ++ [x]) = g.
Proof.
  intros Hg Hp Hn. rewrite <- (attach_known r g p x no_attrs) at 2;
    [| done | done | by apply has_node_true].
  unfold attach. by rewrite Hn.
Qed.

Lemma add_edge_attach_fresh r g p x a :
  tree_shaped r g → p ∈ node_ids g → has_node g (p ++ [x]) = false →
  add_edge (add_node g (p ++ [x]) a) p (p ++ [x]) = extend g p (p ++ [x]) a.
Proof.
  intros Hg Hp Hn. rewrite <- (attach_fresh r g p x a);
    [| done | done | by apply has_node_false].
  unfold attach. by rewrite Hn.
Qed.

(** ** Where the entries of a walk are *)

Lemma located_snoc keep e0 rel n content c :
  located keep e0 rel (Dir n true content) →
  c ∈ content →
  (is_dir c = true → keep (entry_name c) = true) →
  located keep e0 (rel ++ [entry_name c]) c.
Proof.
  intros Hloc Hc Hkeep. remember (Dir n true content) as e eqn:He.
  induction Hloc as [e | n' content' c' rel e Hc' Hk' Hloc IH]; subst; simpl.
  - econstructor; [done | done | constructor].
  - econstructor; [done | done | by apply IH].
Qed.

Lemma located_file keep n r sz rel e :
  located keep (File n r sz) rel e → rel = [] ∧ e = File n r sz.
Proof. by inversion 1. Qed.

(** Every segment on the way passes the filter, except possibly the last
    when it names a file. *)
Lemma located_kept keep e0 rel e :
  located keep e0 rel e →
  Forall (fun x => keep x = true) (List.removelast rel) ∧
  (is_dir e = true → Forall (fun x => keep x = true) rel).
Proof.
  induction 1 as [e | n content c rel e Hc Hk Hloc [IH1 IH2]].
  - by split.
  - destruct rel as [| y rel].
    + inversion Hloc; subst. split; [constructor |].
      intros Hd. constructor; auto.
    + assert (Hdir : is_dir c = true).
      { destruct c; [| done]. by apply located_file in Hloc as [? _]. }
      split.
      * change (List.removelast (entry_name c :: y :: rel))
          with (entry_name c :: List.removelast (y :: rel)).
        constructor; auto.
      * intros Hd. constructor; auto.
Qed.

Lemma elem_of_subdirs keep content d :
  d ∈ subdirs keep content ↔
  d ∈ content ∧ is_dir d = true ∧ keep (entry_name d) = true.
Proof.
  unfold subdirs. rewrite !list_elem_of_In, filter_In, andb_true_iff. tauto.
Qed.

Lemma elem_of_nondirs content f :
  f ∈ nondirs content ↔ f ∈ content ∧ is_dir f = false.
Proof.
  unfold nondirs. rewrite !list_elem_of_In, filter_In, negb_true_iff. tauto.
Qed.

(** ** The main loop of [build_tree_json] *)

(** A fold whose steps only grow the graph and the output: an invariant
    [I] of the graph is kept, and what each step establishes ([Q]) still
    holds at the end when it is stable under growth. *)
Lemma foldM_grow {A} (f : DiGraph → A → M DiGraph) (I : DiGraph → Prop)
    (Q : A → DiGraph → world → Prop) (l : list A) :
  (∀ x g w g' w', x ∈ l → I g → f g x w = (g', w') →
     I g' ∧ grows g g' ∧ extends w w' ∧ Q x g' w') →
  (∀ x g w g' w', Q x g w → grows g g' → extends w w' → Q x g' w') →
  ∀ g w g' w', I g → foldM f l g w = (g', w') →
     I g' ∧ grows g g' ∧ extends w w' ∧ ∀ x, x ∈ l → Q x g' w'.
Proof.
  intros Hstep Hstable. induction l as [| x l IH]; intros g w g' w' HI Hrun.
  - injection Hrun as <- <-.
    split_and!; [done | apply grows_refl | apply extends_refl |].
    intros x Hx. by apply elem_of_nil in Hx.
  - cbn [foldM] in Hrun. unfold bind in Hrun.
    destruct (f g x w) as [g1 w1] eqn:Hfx.
    destruct (Hstep x g w g1 w1) as (HI1 & Hg1 & Hw1 & HQ1);
      [by left | done | done |].
    destruct (IH (fun y g w g' w' Hy => Hstep y g w g' w' (list_elem_of_further _ _ _ Hy))
                g1 w1 g' w' HI1 Hrun) as (HI' & Hg' & Hw' & HQ').
    split_and!; [done | by eapply grows_trans | by eapply extends_trans |].
    intros y Hy. apply elem_of_cons in Hy as [-> | Hy]; [| by apply HQ'].
    by eapply Hstable.
Qed.

Lemma try_getsize_spec full_path f w :
  ∃ w', try_getsize full_path f w = (getsize f, w') ∧ extends w w' ∧
        (getsize f = None → Warning full_path ∈ stdout w').
Proof.
  unfold try_getsize. destruct (getsize f) as [n |].
  - exists w. split_and!; [done | apply extends_refl | done].
  - exists (print (Warning full_path) w).2.
    split_and!; [done | apply extends_print |].
    intros _. simpl. apply elem_of_app. right. by apply list_elem_of_singleton.
Qed.

Section BuildProofs.

Variable clock : nat → Z.
Variable dl : option Z.
Variable keep : string → bool.
Variable e0 : entry.
Variable r : path.

Lemma item_done_stable it g w g' w' :
  item_done it g w → grows g g' → extends w w' → item_done it g' w'.
Proof.
  intros [He Hw] Hg Hx. split.
  - intros c Hc. eapply grows_edge; eauto.
  - intros f Hf Hsz. eapply extends_stdout; eauto.
Qed.

Lemma loop_inv_extend top g x a rel e :
  loop_inv clock dl keep e0 r top g → top = r ++ rel →
  top ++ [x] ∉ node_ids g →
  located keep e0 (rel ++ [x]) e → attrs_ok clock dl r (rel ++ [x]) e a →
  loop_inv clock dl keep e0 r top (extend g top (top ++ [x]) a).
Proof.
  intros (Hg & Hok & Htop) -> Hfresh Hloc Ha. split_and!.
  - by apply extend_shaped.
  - simpl. apply Forall_app. split; [done |]. constructor; [| constructor].
    exists (rel ++ [x]), e. simpl. by rewrite app_assoc.
  - eapply grows_node; [apply extend_grows | done].
Qed.

Lemma add_subdir_spec top rel n content d g w g' w' :
  loop_inv clock dl keep e0 r top g → top = r ++ rel →
  located keep e0 rel (Dir n true content) →
  d ∈ subdirs keep content →
  add_subdir clock dl top top g d w = (g', w') →
  loop_inv clock dl keep e0 r top g' ∧ grows g g' ∧ extends w w' ∧
  (top, join top (entry_name d)) ∈ edges g'.
Proof.
  intros HI Htop Hloc Hd. pose proof HI as (Hg & Hok & Hin).
  apply elem_of_subdirs in Hd as (Hd & Hdir & Hkeep).
  unfold add_subdir, abspath_path, join, bind, ret.
  destruct (has_node g (top ++ [entry_name d])) eqn:Hn.
  - rewrite (add_edge_attach_known r) by done. intros [= <- <-].
    split_and!; [done | apply grows_refl | apply extends_refl |].
    destruct (ts_parent_edge r g (top ++ [entry_name d]))
      as (u & y & Huy & Hedge & _);
      [done | by apply has_node_true | by eapply ts_child_not_root |].
    by apply app_inj_tail in Huy as [<- _].
  - destruct (get_folder_size clock (top ++ [entry_name d]) d dl w)
      as [sz w1] eqn:Hsz.
    rewrite (add_edge_attach_fresh r) by done. intros [= <- <-].
    split_and!.
    + eapply loop_inv_extend; [done | done | by apply has_node_false | |].
      * by eapply located_snoc.
      * destruct d as [| dn dlst dc]; [done |]. exists sz. split.
        -- pose proof (get_folder_size_cases clock dl
                         (top ++ [dn]) (Dir dn dlst dc) w) as Hc.
           simpl in Hsz. unfold size_ok. rewrite Hsz in Hc. simpl in Hc.
           destruct Hc as [[-> ?] | ->]; auto.
        -- simpl. by destruct rel.
    + apply extend_grows.
    + pose proof (get_folder_size_extends clock dl
                    (top ++ [entry_name d]) d w) as Hx.
      by rewrite Hsz in Hx.
    + simpl. apply elem_of_app. right. by apply list_elem_of_singleton.
Qed.

Lemma add_file_spec top rel n content f g w g' w' :
  loop_inv clock dl keep e0 r top g → top = r ++ rel →
  located keep e0 rel (Dir n true content) →
  f ∈ nondirs content →
  add_file top top g f w = (g', w') →
  loop_inv clock dl keep e0 r top g' ∧ grows g g' ∧ extends w w' ∧
  ((top, join top (entry_name f)) ∈ edges g' ∧
   (getsize f = None → Warning (join top (entry_name f)) ∈ stdout w')).
Proof.
  intros HI Htop Hloc Hf. pose proof HI as (Hg & Hok & Hin).
  apply elem_of_nondirs in Hf as (Hf & Hdir).
  unfold add_file, abspath_path, join, bind, ret.
  destruct (try_getsize_spec (top ++ [entry_name f]) f w)
    as (w1 & -> & Hx & Hwarn).
  destruct (has_node g (top ++ [entry_name f])) eqn:Hn.
  - rewrite (add_edge_attach_known r) by done. intros [= <- <-].
    split_and!; [done | apply grows_refl | done | | done].
    destruct (ts_parent_edge r g (top ++ [entry_name f]))
      as (u & y & Huy & Hedge & _);
      [done | by apply has_node_true | by eapply ts_child_not_root |].
    by apply app_inj_tail in Huy as [<- _].
  - rewrite (add_edge_attach_fresh r) by done. intros [= <- <-].
    split_and!; [| apply extend_grows | done | | done].
    + eapply loop_inv_extend; [done | done | by apply has_node_false | |].
      * eapply located_snoc; [done | done | by rewrite Hdir].
      * by destruct f.
    + simpl. apply elem_of_app. right. by apply list_elem_of_singleton.
Qed.

Lemma visit_spec top rel n content g w g' w' :
  loop_inv clock dl keep e0 r top g → top = r ++ rel →
  located keep e0 rel (Dir n true content) →
  visit clock dl g
    (WalkItem top (Dir n true content) (subdirs keep content) (nondirs content))
    w = (g', w') →
  loop_inv clock dl keep e0 r top g' ∧ grows g g' ∧ extends w w' ∧
  item_done
    (WalkItem top (Dir n true content) (subdirs keep content) (nondirs content))
    g' w'.
Proof.
  intros HI Htop Hloc. pose proof HI as (Hg & Hok & Hin).
  unfold visit, abspath_path. cbn [w_top w_here w_dirs w_files].
  rewrite (proj2 (has_node_true g top)) by done.
  unfold bind at 1, ret at 1. unfold bind.
  destruct (foldM (add_subdir clock dl top top) (subdirs keep content) g w)
    as [g2 w2] eqn:Hdirs.
  intros Hfiles.
  destruct (foldM_grow (add_subdir clock dl top top) (loop_inv clock dl keep e0 r top)
              (fun d g w => (top, join top (entry_name d)) ∈ edges g)
              (subdirs keep content)) with (g := g) (w := w) (g' := g2) (w' := w2)
    as (HI2 & Hg2 & Hw2 & HQ2); [| | done | done |].
  { intros d g1 w1 g1' w1' Hd HI1 Hrun. by eapply add_subdir_spec. }
  { intros d g1 w1 g1' w1' HQ Hgr _. by eapply grows_edge. }
  destruct (foldM_grow (add_file top top) (loop_inv clock dl keep e0 r top)
              (fun f g w => (top, join top (entry_name f)) ∈ edges g ∧
                 (getsize f = None →
                  Warning (join top (entry_name f)) ∈ stdout w))
              (nondirs content)) with (g := g2) (w := w2) (g' := g') (w' := w')
    as (HI3 & Hg3 & Hw3 & HQ3); [| | done | done |].
  { intros f g1 w1 g1' w1' Hf HI1 Hrun. by eapply add_file_spec. }
  { intros f g1 w1 g1' w1' [HQ HW] Hgr Hx. split.
    - by eapply grows_edge.
    - intros Hsz. eapply extends_stdout; eauto. }
  split_and!; [done | by eapply grows_trans | by eapply extends_trans |].
  split; cbn [w_top w_dirs w_files].
  - intros c Hc. apply elem_of_app in Hc as [Hc | Hc].
    + eapply grows_edge; [done |]. by apply HQ2.
    + by apply HQ3.
  - intros f Hf. by apply HQ3.
Qed.

Lemma loop_inv_top top top' g :
  loop_inv clock dl keep e0 r top g → top' ∈ node_ids g → loop_inv clock dl keep e0 r top' g.
Proof. unfold loop_inv. intros (? & ? & _) ?. by split_and!. Qed.

(** A step that changes neither the graph nor the state. *)
Ltac nothing_changes :=
  split_and!; [done | apply grows_refl | apply extends_refl | constructor].

(** The visits of the walk below [e], started in a graph that has the node
    of [e]. *)
Lemma walk_loop e :
  ∀ top rel g w g' w',
    loop_inv clock dl keep e0 r top g → top = r ++ rel → located keep e0 rel e →
    foldM (visit clock dl) (walk keep top e) g w = (g', w') →
    loop_inv clock dl keep e0 r top g' ∧ grows g g' ∧ extends w w' ∧
    Forall (fun it => item_done it g' w') (walk keep top e).
Proof.
  induction e as [n rg sz | n l content IH] using entry_ind';
    intros top rel g w g' w' HI Htop Hloc.
  { intros [= <- <-].
    nothing_changes. }
  destruct l; cycle 1.
  { intros [= <- <-].
    nothing_changes. }
  rewrite walk_dir_unfold.
  set (it := WalkItem top (Dir n true content) (subdirs keep content)
               (nondirs content)).
  set (F := fun c => if is_dir c && keep (entry_name c)
                     then walk keep (join top (entry_name c)) c else []).
  cbn [foldM]. unfold bind.
  destruct (visit clock dl g it w) as [g1 w1] eqn:Hvisit. intros Hrest.
  destruct (visit_spec _ _ _ _ _ _ _ _ HI Htop Hloc Hvisit)
    as (HI1 & Hg1 & Hw1 & Hdone1).
  assert (Hchildren : ∀ cs, Forall (fun c => c ∈ content) cs →
    Forall (fun e => ∀ top rel g w g' w',
       loop_inv clock dl keep e0 r top g → top = r ++ rel → located keep e0 rel e →
       foldM (visit clock dl) (walk keep top e) g w = (g', w') →
       loop_inv clock dl keep e0 r top g' ∧ grows g g' ∧ extends w w' ∧
       Forall (fun it => item_done it g' w') (walk keep top e)) cs →
    ∀ g w g' w', loop_inv clock dl keep e0 r top g → grows g1 g →
      foldM (visit clock dl) (List.flat_map F cs) g w = (g', w') →
      loop_inv clock dl keep e0 r top g' ∧ grows g g' ∧ extends w w' ∧
      Forall (fun it => item_done it g' w') (List.flat_map F cs)).
  { clear Hrest. induction cs as [| c cs IHcs];
      intros Hsub HIH ga wa gb wb HIa Hga Hrun.
    { injection Hrun as <- <-.
      nothing_changes. }
    apply Forall_cons in Hsub as [Hc Hsub].
    apply Forall_cons in HIH as [IHc HIH].
    cbn [List.flat_map] in *. rewrite foldM_app in Hrun.
    destruct (foldM (visit clock dl) (F c) ga wa) as [gc wc] eqn:Hc_run.
    assert (Hstep : loop_inv clock dl keep e0 r top gc ∧ grows ga gc ∧ extends wa wc ∧
                    Forall (fun it => item_done it gc wc) (F c)).
    { unfold F in *. destruct (is_dir c && keep (entry_name c)) eqn:Hkept.
      - apply andb_true_iff in Hkept as [Hdir Hkeep].
        assert (Hnode : join top (entry_name c) ∈ node_ids ga).
        { eapply grows_node; [done |].
          eapply ts_target; [apply HI1 |]. apply Hdone1.
          cbn [w_dirs w_files it]. apply elem_of_app. left.
          by apply elem_of_subdirs. }
        destruct (IHc (join top (entry_name c)) (rel ++ [entry_name c])
                    ga wa gc wc) as (HIc & Hgc & Hwc & Hdonec).
        + by eapply loop_inv_top.
        + unfold join. by rewrite Htop, app_assoc.
        + by eapply located_snoc.
        + done.
        + split_and!; [| done | done | done].
          eapply loop_inv_top; [done |]. eapply grows_node; [done |].
          apply HIa.
      - injection Hc_run as <- <-.
        nothing_changes. }
    destruct Hstep as (HIc & Hgc & Hwc & Hdonec).
    destruct (IHcs Hsub HIH gc wc gb wb HIc) as (HIb & Hgb & Hwb & Hdoneb);
      [by eapply grows_trans | done |].
    split_and!; [done | by eapply grows_trans | by eapply extends_trans |].
    apply Forall_app. split; [| done].
    eapply Forall_impl; [exact Hdonec |].
    intros x Hx. simpl in Hx. by eapply item_done_stable. }
  destruct (Hchildren content) with (g := g1) (w := w1) (g' := g') (w' := w')
    as (HI' & Hg' & Hw' & Hdone');
    [by apply Forall_forall | done | done | apply grows_refl | done |].
  split_and!; [done | by eapply grows_trans | by eapply extends_trans |].
  constructor; [| done]. by eapply item_done_stable.
Qed.

End BuildProofs.

(** ** The graph of [build_tree_json] *)

Lemma has_node_empty n : has_node empty_graph n = false.
Proof. apply has_node_false. unfold node_ids. simpl. apply not_elem_of_nil. Qed.

Lemma has_node_single n a : has_node (Graph [(n, a)] []) n = true.
Proof. apply has_node_true. unfold node_ids. simpl. by left. Qed.

Lemma single_shaped r a : tree_shaped r (Graph [(r, a)] []).
Proof.
  split; unfold node_ids; simpl.
  - done.
  - apply NoDup_singleton.
  - intros u v Huv. by apply elem_of_nil in Huv.
Qed.

(** The first visit creates the root node; from then on the loop runs in a
    graph that has it. *)
Lemma visit_from_empty clock dl it w :
  visit clock dl empty_graph it w =
  let (sz, w1) := get_folder_size clock (w_top it) (w_here it) dl w in
  visit clock dl
    (Graph [(w_top it, folder_attrs (parent_name (w_top it)) sz)] []) it w1.
Proof.
  unfold visit, abspath_path. rewrite has_node_empty.
  unfold bind at 1. unfold bind at 1.
  destruct (get_folder_size clock (w_top it) (w_here it) dl w) as [sz w1].
  unfold ret at 1. rewrite add_node_fresh by apply not_elem_of_nil.
  cbn [nodes edges empty_graph app]. rewrite has_node_single.
  reflexivity.
Qed.

Lemma build_loop_spec clock dl keep r n content w g' w' :
  foldM (visit clock dl) (walk keep r (Dir n true content)) empty_graph w
    = (g', w') →
  loop_inv clock dl keep (Dir n true content) r r g' ∧ extends w w' ∧
  Forall (fun it => item_done it g' w') (walk keep r (Dir n true content)).
Proof.
  intros Hrun.
  assert (∃ sz w1,
    get_folder_size clock r (Dir n true content) dl w = (sz, w1) ∧
    foldM (visit clock dl) (walk keep r (Dir n true content))
      (Graph [(r, folder_attrs (parent_name r) sz)] []) w1 = (g', w'))
    as (sz & w1 & Hsz & Hrun').
  { rewrite walk_dir_unfold in *. cbn [foldM] in *. unfold bind at 1 in Hrun.
    rewrite visit_from_empty in Hrun. cbn [w_top w_here] in Hrun.
    destruct (get_folder_size clock r (Dir n true content) dl w) as [sz w1].
    exists sz, w1. split; [done |]. by unfold bind at 1. }
  destruct (walk_loop clock dl keep (Dir n true content) r
              (Dir n true content) r []
              (Graph [(r, folder_attrs (parent_name r) sz)] []) w1 g' w')
    as (HI & _ & Hx & Hdone).
  - split_and!; [apply single_shaped | | by apply has_node_true, has_node_single].
    constructor; [| constructor].
    exists [], (Dir n true content). simpl.
    split_and!; [by rewrite app_nil_r | constructor |].
    exists sz. split; [| done].
    pose proof (get_folder_size_cases clock dl r (Dir n true content) w) as Hc.
    rewrite Hsz in Hc. exact Hc.
  - by rewrite app_nil_r.
  - constructor.
  - done.
  - split_and!; [done | | done].
    eapply extends_trans; [| done].
    pose proof (get_folder_size_extends clock dl r (Dir n true content) w) as H.
    by rewrite Hsz in H.
Qed.

Lemma not_walkable_walk keep fs top :
  walkable (resolve fs top) = false → os_walk keep fs top = [].
Proof.
  unfold os_walk. destruct (resolve fs top) as [[| n [] c] |]; done.
Qed.

Lemma start_deadline_spec clock max_seconds w :
  ∃ dl w1, start_deadline clock max_seconds w = (dl, w1) ∧ extends w w1 ∧
    ((dl = None ∧ w1 = w ∧ ∀ m, max_seconds = Some m → m ≤ 0) ∨
     (∃ m, max_seconds = Some m ∧ 0 < m ∧
           dl = Some (clock (ticks w) + m) ∧
           w1 = World (S (ticks w)) (stdout w))).
Proof.
  unfold start_deadline. destruct max_seconds as [m |].
  - destruct (Z.ltb_spec 0 m).
    + eexists _, _. split; [reflexivity |]. split.
      * split; simpl; [lia | reflexivity].
      * right. exists m. auto.
    + exists None, w. split; [done |]. split; [apply extends_refl |].
      left. split_and!; [done | done |]. intros ? [= <-]. lia.
  - exists None, w. split; [done |]. split; [apply extends_refl |].
    left. by split_and!.
Qed.

Lemma build_graph_spec clock fs cwd dir ignore max_seconds w root g w' :
  build_graph clock fs cwd dir ignore max_seconds w = ((root, g), w') →
  root = abspath cwd dir ∧ extends w w' ∧
  ∃ dl, built clock fs (_normalize_ignores ignore) root dl g w' ∧
        ((∀ m, max_seconds = Some m → m ≤ 0) → dl = None) ∧
        (∀ d, dl = Some d →
           ∃ m, max_seconds = Some m ∧ 0 < m ∧ d = clock (ticks w) + m).
Proof.
  unfold build_graph, abspath_path. unfold bind at 1, print at 1.
  match goal with |- context [World (ticks w) ?out] =>
    set (w0 := World (ticks w) out) end.
  assert (Hw0 : extends w w0) by apply extends_print.
  unfold bind at 1.
  destruct (start_deadline_spec clock max_seconds w0)
    as (dl & w1 & -> & Hw1 & Hdl).
  unfold bind at 1.
  destruct (foldM (visit clock dl) _ empty_graph w1) as [g1 w2] eqn:Hloop.
  unfold ret. intros [= <- <- <-]. split; [done |].
  assert (Hnone : ((∀ m, max_seconds = Some m → m ≤ 0) → dl = None) ∧
                  (∀ d, dl = Some d →
                     ∃ m, max_seconds = Some m ∧ 0 < m ∧
                          d = clock (ticks w) + m)).
  { destruct Hdl as [(-> & _) | (m & -> & Hpos & -> & _)]; [by split |].
    split.
    - intros Hm. specialize (Hm m eq_refl). lia.
    - intros d [= <-]. exists m. by split_and!. }
  destruct (walkable (resolve fs (abspath cwd dir))) eqn:Hwalk.
  - unfold os_walk in *.
    destruct (resolve fs (abspath cwd dir)) as [[| n [] content] |] eqn:Hres;
      try done.
    destruct (build_loop_spec _ _ _ _ _ _ _ _ _ Hloop) as (HI & Hx & Hdone).
    destruct HI as (Hg & Hok & Hin).
    rewrite (proj2 (has_node_true g1 _)) by done.
    split; [eauto using extends_trans |].
    exists dl. split; [| done]. split.
    + done.
    + by rewrite Hres.
    + intros e0 He0 _. rewrite Hres in He0. by injection He0 as <-.
    + unfold os_walk. by rewrite Hres.
  - rewrite not_walkable_walk in * by done.
    injection Hloop as <- <-. rewrite has_node_empty.
    split; [eauto using extends_trans |].
    exists dl. split; [| done]. split.
    + apply single_shaped.
    + done.
    + intros e0 He0 Hw. rewrite He0 in Hwalk. congruence.
    + rewrite not_walkable_walk by done. constructor.
Qed.

(** ** [tree_data] succeeds on the graphs of the builder *)

Lemma lookup_attrs_elem l n a : lookup_attrs l n = Some a → (n, a) ∈ l.
Proof.
  induction l as [| [m b] l IH]; simpl; [done |].
  case_bool_decide as Hm.
  - intros [= ->]. subst. by left.
  - intros H. right. auto.
Qed.

Lemma lookup_attrs_is_Some l n : n ∈ l.*1 → is_Some (lookup_attrs l n).
Proof.
  induction l as [| [m b] l IH]; simpl.
  - intros H. by apply elem_of_nil in H.
  - intros H. case_bool_decide as Hm; [by eexists |].
    apply elem_of_cons in H as [-> | H]; [done | auto].
Qed.

Lemma lookup_attrs_nodup l n a :
  NoDup l.*1 → (n, a) ∈ l → lookup_attrs l n = Some a.
Proof.
  induction l as [| [m b] l IH]; simpl; intros Hnd Hin.
  - by apply elem_of_nil in Hin.
  - apply NoDup_cons in Hnd as [Hm Hnd].
    apply elem_of_cons in Hin as [[= -> ->] | Hin].
    + by rewrite bool_decide_eq_true_2.
    + rewrite bool_decide_eq_false_2; [auto |].
      intros ->. apply Hm. apply list_elem_of_fmap. by exists (n, a).
Qed.

Lemma elem_of_successors g n c : c ∈ successors g n ↔ (n, c) ∈ edges g.
Proof.
  unfold successors. rewrite list_elem_of_fmap. split.
  - intros ([u v] & -> & Hin). apply list_elem_of_In, filter_In in Hin as [Hin Hu].
    apply bool_decide_eq_true in Hu. simpl in *. subst.
    by apply list_elem_of_In.
  - intros Hin. exists (n, c). split; [done |].
    apply list_elem_of_In, filter_In. split; [by apply list_elem_of_In |].
    by apply bool_decide_eq_true.
Qed.

Lemma elem_of_neighbours g x y :
  y ∈ neighbours g x ↔ (x, y) ∈ edges g ∨ (y, x) ∈ edges g.
Proof.
  unfold neighbours. rewrite list_elem_of_In, in_flat_map. split.
  - intros ([u v] & Hin & Hy). apply list_elem_of_In in Hin.
    apply in_app_iff in Hy as [Hy | Hy]; simpl in Hy;
      case_bool_decide; simpl in *; subst; try done;
      destruct Hy as [<- | []]; auto.
  - intros [Hin | Hin].
    + exists (x, y). split; [by apply list_elem_of_In |].
      apply in_app_iff. left. simpl. rewrite bool_decide_eq_true_2 by done.
      by left.
    + exists (y, x). split; [by apply list_elem_of_In |].
      apply in_app_iff. right. simpl. rewrite bool_decide_eq_true_2 by done.
      by left.
Qed.

(** *** Depth of a node *)

Lemma ts_prefix r g rel k :
  tree_shaped r g → r ++ rel ∈ node_ids g → r ++ take k rel ∈ node_ids g.
Proof.
  intros Hg. revert k. induction rel as [| x rel IH] using rev_ind; intros k Hn.
  - by rewrite take_nil.
  - destruct (decide (length rel < k)%nat) as [Hk | Hk].
    + rewrite take_ge; [done |]. rewrite length_app. simpl. lia.
    + rewrite take_app_le by lia. apply IH.
      destruct (ts_parent_edge r g (r ++ rel ++ [x])) as (u & y & Huy & _ & Hu);
        [done | done | |].
      * intros Heq. apply (f_equal length) in Heq.
        rewrite !length_app in Heq. simpl in Heq. lia.
      * rewrite app_assoc in Huy. by apply app_inj_tail in Huy as [<- _].
Qed.

Lemma ts_depth r g rel :
  tree_shaped r g → r ++ rel ∈ node_ids g →
  (length rel < number_of_nodes g)%nat.
Proof.
  intros Hg Hn.
  set (L := (fun k => r ++ take k rel) <$> seq 0 (S (length rel))).
  assert (HL : NoDup L).
  { apply NoDup_fmap_2_strong; [| apply NoDup_seq].
    intros i j Hi Hj Heq. apply elem_of_seq in Hi, Hj.
    apply app_inv_head in Heq. apply (f_equal length) in Heq.
    rewrite !length_take in Heq. lia. }
  assert (Hsub : L ⊆+ node_ids g).
  { apply NoDup_submseteq; [done |]. intros x Hx.
    apply list_elem_of_fmap in Hx as (k & -> & _). by apply ts_prefix. }
  apply submseteq_length in Hsub. unfold L, node_ids in Hsub.
  rewrite !length_fmap, length_seq in Hsub. unfold number_of_nodes. lia.
Qed.

(** *** Connectedness *)

Lemma component_S g k seen :
  component (S k) g seen = component k g (grow_component g seen).
Proof. reflexivity. Qed.

Lemma elem_of_grow_component g seen y :
  y ∈ grow_component g seen ↔ y ∈ seen ∨ ∃ x, x ∈ seen ∧ y ∈ neighbours g x.
Proof.
  unfold grow_component. rewrite elem_of_remove_dups, elem_of_app.
  split; (intros [Hy | Hy]; [by left | right]).
  - apply list_elem_of_In, in_flat_map in Hy as (x & Hx & Hy).
    exists x. by rewrite !list_elem_of_In.
  - destruct Hy as (x & Hx & Hy). apply list_elem_of_In, in_flat_map.
    exists x. by rewrite <- !list_elem_of_In.
Qed.

Lemma component_mono g k seen seen' :
  seen ⊆ seen' → component k g seen ⊆ component k g seen'.
Proof.
  revert seen seen'. induction k as [| k IH]; intros seen seen' Hsub; [done |].
  rewrite !component_S. apply IH. intros y.
  rewrite !elem_of_grow_component. intros [Hy | (x & Hx & Hy)]; [auto |].
  right. exists x. auto.
Qed.

Lemma component_S_sub g k seen :
  component k g seen ⊆ component (S k) g seen.
Proof.
  rewrite component_S. apply component_mono. intros y Hy.
  apply elem_of_grow_component. auto.
Qed.

Lemma component_le g k k' seen :
  (k ≤ k')%nat → component k g seen ⊆ component k' g seen.
Proof.
  induction 1 as [| k' _ IH]; [done |].
  etrans; [exact IH | apply component_S_sub].
Qed.

Lemma component_step g k seen x y :
  x ∈ component k g seen → y ∈ neighbours g x → y ∈ component (S k) g seen.
Proof.
  revert seen. induction k as [| k IH]; intros seen Hx Hy.
  - simpl in *. apply elem_of_grow_component. eauto.
  - rewrite component_S in *. by apply IH.
Qed.

Lemma component_nodup g k seen :
  NoDup seen → NoDup (component k g seen).
Proof.
  revert seen. induction k as [| k IH]; intros seen Hnd; [done |].
  rewrite component_S. apply IH. apply NoDup_remove_dups.
Qed.

Lemma component_nodes r g k seen :
  tree_shaped r g → seen ⊆ node_ids g → component k g seen ⊆ node_ids g.
Proof.
  intros Hg. revert seen. induction k as [| k IH]; intros seen Hsub; [done |].
  rewrite component_S. apply IH. intros y.
  rewrite elem_of_grow_component. intros [Hy | (x & Hx & Hy)]; [auto |].
  apply elem_of_neighbours in Hy as [Hy | Hy].
  - by eapply ts_target.
  - by destruct (ts_edges _ _ Hg _ _ Hy).
Qed.

Lemma component_reaches r g rel :
  tree_shaped r g → r ++ rel ∈ node_ids g →
  r ++ rel ∈ component (length rel) g [r].
Proof.
  intros Hg. induction rel as [| x rel IH] using rev_ind; intros Hn.
  - rewrite app_nil_r. simpl. by left.
  - rewrite length_app, Nat.add_1_r.
    destruct (ts_parent_edge r g (r ++ rel ++ [x])) as (u & y & Huy & He & Hu);
      [done | done | |].
    { intros Heq. apply (f_equal length) in Heq.
      rewrite !length_app in Heq. simpl in Heq. lia. }
    rewrite app_assoc in Huy. pose proof Huy as Huy'.
    apply app_inj_tail in Huy' as [<- <-].
    eapply component_step; [by apply IH |].
    apply elem_of_neighbours. by left.
Qed.

Lemma ts_first r g : tree_shaped r g → ∃ a rest, nodes g = (r, a) :: rest.
Proof.
  intros Hg. pose proof (ts_ids _ _ Hg) as H. unfold node_ids in H.
  destruct (nodes g) as [| [n a] rest]; [done |].
  injection H as -> _. eauto.
Qed.

Lemma ts_connected r g : tree_shaped r g → is_weakly_connected g = Ok true.
Proof.
  intros Hg. unfold is_weakly_connected.
  destruct (ts_first _ _ Hg) as (a & rest & Hnodes). rewrite Hnodes.
  f_equal. apply bool_decide_eq_true.
  change (number_of_nodes g) with (length (nodes g)).
  rewrite <- (length_fmap fst (nodes g)). fold (node_ids g).
  apply Permutation_length, NoDup_Permutation.
  - apply component_nodup, NoDup_singleton.
  - by apply (ts_nodup r).
  - intros n. split.
    + apply (component_nodes r); [done |]. intros y Hy.
      apply list_elem_of_singleton in Hy as ->. by apply ts_root.
    + intros Hn. destruct (ts_below _ _ _ Hg Hn) as [rel ->].
      eapply component_le; [| by apply component_reaches].
      unfold node_ids. rewrite length_fmap.
      pose proof (ts_depth _ _ _ Hg Hn). unfold number_of_nodes in *. lia.
Qed.

(** *** The recursion of [add_children] *)

Lemma collect_ok {A B} (f : A → result B) l :
  (∀ x, x ∈ l → ∃ y, f x = Ok y) → ∃ ys, collect f l = Ok ys.
Proof.
  induction l as [| x l IH]; intros Hf; simpl; [by eexists |].
  destruct (Hf x) as [y ->]; [by left |].
  destruct IH as [ys ->]; [| by eexists].
  intros z Hz. apply Hf. by right.
Qed.

Lemma collect_inv {A B} (f : A → result B) l ys :
  collect f l = Ok ys → Forall2 (fun x y => f x = Ok y) l ys.
Proof.
  revert ys. induction l as [| x l IH]; intros ys; simpl.
  - intros [= <-]. constructor.
  - destruct (f x) as [y |] eqn:Hx; [| done].
    destruct (collect f l) as [ys' |]; [| done].
    intros [= <-]. constructor; auto.
Qed.

Lemma add_children_ok r g depth n :
  tree_shaped r g → n ∈ node_ids g →
  (length r + number_of_nodes g - length n ≤ depth)%nat →
  ∃ ts, add_children depth g n = Ok ts.
Proof.
  intros Hg. revert n. induction depth as [| depth IH]; intros n Hn Hdepth.
  - destruct (ts_below _ _ _ Hg Hn) as [rel ->].
    pose proof (ts_depth _ _ _ Hg Hn). rewrite length_app in Hdepth. lia.
  - cbn [add_children]. apply collect_ok. intros c Hc.
    apply elem_of_successors in Hc.
    pose proof (ts_target _ _ _ _ Hg Hc) as Hcn.
    destruct (ts_edges _ _ Hg _ _ Hc) as [_ [x ->]].
    destruct (lookup_attrs_is_Some (nodes g) (n ++ [x])) as [d Hd]; [done |].
    unfold node_attrs. rewrite Hd.
    destruct (IH (n ++ [x])) as [ts ->]; [done | | by eexists].
    rewrite length_app. simpl. lia.
Qed.

(** ** The returned document *)

Lemma tree_ind' (P : tree → Prop) :
  (∀ i a children, Forall P children → P (Node i a children)) → ∀ t, P t.
Proof.
  intros HN. fix IH 1. intros [i a children]. apply HN.
  induction children as [| c children IHc]; constructor; [apply IH | apply IHc].
Qed.

Lemma subtrees_self t : t ∈ subtrees t.
Proof. destruct t. by left. Qed.

Lemma elem_of_subtrees_node i a children s :
  s ∈ subtrees (Node i a children) ↔
  s = Node i a children ∨ ∃ c, c ∈ children ∧ s ∈ subtrees c.
Proof.
  cbn [subtrees]. rewrite elem_of_cons.
  split; (intros [Hs | Hs]; [by left | right]).
  - apply list_elem_of_In, in_flat_map in Hs as (c & Hc & Hs).
    exists c. by rewrite !list_elem_of_In.
  - destruct Hs as (c & Hc & Hs). apply list_elem_of_In, in_flat_map.
    exists c. by rewrite <- !list_elem_of_In.
Qed.

Lemma subtrees_trans t s u : s ∈ subtrees t → u ∈ subtrees s → u ∈ subtrees t.
Proof.
  revert s u. induction t as [i a children IH] using tree_ind'.
  intros s u Hs Hu. apply elem_of_subtrees_node in Hs as [-> | (c & Hc & Hs)].
  - done.
  - apply elem_of_subtrees_node. right. exists c. split; [done |].
    rewrite Forall_forall in IH. eapply IH; eauto.
Qed.

Lemma subtrees_child t s c :
  s ∈ subtrees t → c ∈ tree_children s → c ∈ subtrees t.
Proof.
  intros Hs Hc. eapply subtrees_trans; [done |].
  destruct s as [i a children]. apply elem_of_subtrees_node. right.
  exists c. split; [done | apply subtrees_self].
Qed.

Lemma add_children_faithful g depth n ts :
  add_children depth g n = Ok ts →
  tree_id <$> ts = successors g n ∧
  Forall (fun t => ∀ s, s ∈ subtrees t → faithful g s) ts.
Proof.
  revert n ts. induction depth as [| depth IH]; intros n ts; [done |].
  cbn [add_children]. intros Hc. apply collect_inv in Hc.
  induction Hc as [| c t cs ts Hct _ IHcs]; [by split; [| constructor] |].
  destruct IHcs as [Hids Hall].
  destruct (node_attrs g c) as [d |] eqn:Hd; [| done].
  destruct (add_children depth g c) as [ch |] eqn:Hch; [| done].
  injection Hct as <-. destruct (IH _ _ Hch) as [Hchids Hchall].
  split; [by rewrite fmap_cons, Hids |].
  constructor; [| done]. intros s Hs.
  apply elem_of_subtrees_node in Hs as [-> | (c' & Hc' & Hs)].
  - by split.
  - rewrite Forall_forall in Hchall. eauto.
Qed.

Lemma tree_data_faithful g root t :
  tree_data g root = Ok t →
  tree_id t = root ∧ ∀ s, s ∈ subtrees t → faithful g s.
Proof.
  unfold tree_data. destruct (negb _); [done |].
  destruct (is_weakly_connected g) as [[] |]; try done.
  destruct (node_attrs g root) as [d |] eqn:Hd; [| done].
  destruct (add_children _ g root) as [ch |] eqn:Hch; [| done].
  intros [= <-]. split; [done |].
  destruct (add_children_faithful _ _ _ _ Hch) as [Hids Hall].
  intros s Hs. apply elem_of_subtrees_node in Hs as [-> | (c & Hc & Hs)].
  - by split.
  - rewrite Forall_forall in Hall. eauto.
Qed.

(** The conversion never fails on a graph of the builder. *)
Lemma tree_data_ok r g : tree_shaped r g → ∃ t, tree_data g r = Ok t.
Proof.
  intros Hg. unfold tree_data.
  assert (Hsz : (number_of_nodes g =? number_of_edges g + 1)%nat = true)
    by (by eapply Nat.eqb_eq, ts_size).
  rewrite Hsz. cbn [negb].
  rewrite (ts_connected _ _ Hg).
  destruct (lookup_attrs_is_Some (nodes g) r) as [d Hd]; [by apply ts_root |].
  unfold node_attrs. rewrite Hd.
  destruct (add_children_ok r g (number_of_nodes g) r) as [ch ->];
    [done | by apply ts_root | lia | by eexists].
Qed.

(** Every node of the graph is shown in the document. *)
Lemma tree_data_complete r g t n :
  tree_shaped r g → tree_data g r = Ok t → n ∈ node_ids g →
  ∃ s, s ∈ subtrees t ∧ tree_id s = n.
Proof.
  intros Hg Ht Hn. destruct (tree_data_faithful _ _ _ Ht) as [Hroot Hfaith].
  destruct (ts_below _ _ _ Hg Hn) as [rel ->].
  induction rel as [| x rel IH] using rev_ind.
  - exists t. rewrite app_nil_r. split; [apply subtrees_self | done].
  - destruct (ts_parent_edge r g (r ++ rel ++ [x])) as (u & y & Huy & He & Hu);
      [done | done | |].
    { intros Heq. apply (f_equal length) in Heq.
      rewrite !length_app in Heq. simpl in Heq. lia. }
    rewrite app_assoc in Huy. pose proof Huy as Huy'.
    apply app_inj_tail in Huy' as [<- <-].
    destruct (IH Hu) as (s & Hs & Hid).
    destruct (Hfaith s Hs) as [_ Hsucc].
    assert (Hc : (r ++ rel) ++ [x] ∈ tree_id <$> tree_children s).
    { rewrite Hsucc, Hid. apply elem_of_successors.
      by rewrite <- app_assoc. }
    apply list_elem_of_fmap in Hc as (c & Hcid & Hc).
    exists c. split; [by eapply subtrees_child |]. by rewrite <- Hcid, <- app_assoc.
Qed.

(** A node of the document is a node of the graph, with its attributes. *)
Lemma tree_node_in_graph r g t s :
  tree_shaped r g → tree_data g r = Ok t → s ∈ subtrees t →
  (tree_id s, tree_attrs s) ∈ nodes g.
Proof.
  intros Hg Ht Hs. destruct (tree_data_faithful _ _ _ Ht) as [_ Hfaith].
  destruct (Hfaith s Hs) as [Ha _]. by apply lookup_attrs_elem.
Qed.

Lemma elem_of_tree_edges t u v :
  (u, v) ∈ tree_edges t ↔
  ∃ s c, s ∈ subtrees t ∧ c ∈ tree_children s ∧ tree_id s = u ∧ tree_id c = v.
Proof.
  unfold tree_edges. rewrite list_elem_of_In, in_flat_map. split.
  - intros (s & Hs & Hc). apply list_elem_of_In in Hs, Hc.
    apply list_elem_of_fmap in Hc as (c & [= -> ->] & Hc). eauto 10.
  - intros (s & c & Hs & Hc & <- & <-). exists s.
    rewrite <- !list_elem_of_In. split; [done |].
    apply list_elem_of_fmap. eauto.
Qed.

(** The document has exactly the edges of the graph. *)
Lemma tree_edges_graph r g t u v :
  tree_shaped r g → tree_data g r = Ok t →
  (u, v) ∈ tree_edges t ↔ (u, v) ∈ edges g.
Proof.
  intros Hg Ht. destruct (tree_data_faithful _ _ _ Ht) as [_ Hfaith].
  rewrite elem_of_tree_edges. split.
  - intros (s & c & Hs & Hc & <- & <-). destruct (Hfaith s Hs) as [_ Hsucc].
    apply elem_of_successors. rewrite <- Hsucc. apply list_elem_of_fmap. eauto.
  - intros He. destruct (ts_edges _ _ Hg _ _ He) as [Hu _].
    destruct (tree_data_complete _ _ _ _ Hg Ht Hu) as (s & Hs & <-).
    destruct (Hfaith s Hs) as [_ Hsucc].
    apply elem_of_successors in He. rewrite <- Hsucc in He.
    apply list_elem_of_fmap in He as (c & -> & Hc). eauto 10.
Qed.

(** [build_tree_json] always returns a document, and it is the conversion
    of a graph of the shape above. *)
Lemma build_tree_json_spec clock fs cwd dir ignore max_seconds w :
  ∃ g w' t dl,
    build_tree_json clock fs cwd dir ignore max_seconds w = (Ok t, w') ∧
    extends w w' ∧
    built clock fs (_normalize_ignores ignore) (abspath cwd dir) dl g w' ∧
    ((∀ m, max_seconds = Some m → m ≤ 0) → dl = None) ∧
    (∀ d, dl = Some d →
       ∃ m, max_seconds = Some m ∧ 0 < m ∧ d = clock (ticks w) + m) ∧
    tree_data g (abspath cwd dir) = Ok t.
Proof.
  unfold build_tree_json, bind.
  destruct (build_graph clock fs cwd dir ignore max_seconds w)
    as [[root g] w'] eqn:Hg.
  destruct (build_graph_spec _ _ _ _ _ _ _ _ _ _ Hg)
    as (-> & Hx & dl & Hbuilt & Hnone & Hsome).
  destruct (tree_data_ok _ _ (built_shaped _ _ _ _ _ _ _ Hbuilt)) as [t Ht].
  exists g, w', t, dl. unfold ret. simpl. rewrite Ht. by split_and!.
Qed.

(** ** Well-formed file systems *)


Lemma child_In content x e : child content x = Some e → e ∈ content ∧ entry_name e = x.
Proof.
  unfold child. intros H. apply find_some in H as [Hin Hx].
  apply bool_decide_eq_true in Hx. by rewrite list_elem_of_In.
Qed.

Lemma child_unique content c :
  NoDup (entry_name <$> content) → c ∈ content →
  child content (entry_name c) = Some c.
Proof.
  unfold child. induction content as [| e content IH]; intros Hnd Hc.
  - by apply elem_of_nil in Hc.
  - rewrite fmap_cons in Hnd. apply NoDup_cons in Hnd as [He Hnd]. simpl.
    apply elem_of_cons in Hc as [-> | Hc].
    + by rewrite bool_decide_eq_true_2.
    + rewrite bool_decide_eq_false_2; [auto |].
      intros Heq. apply He. rewrite Heq. apply list_elem_of_fmap. eauto.
Qed.

Lemma wf_entry_child n l content c :
  wf_entry (Dir n l content) = true → c ∈ content → wf_entry c = true.
Proof.
  cbn [wf_entry]. intros [_ Hall]%andb_true_iff Hc.
  rewrite forallb_forall in Hall. apply Hall. by apply list_elem_of_In.
Qed.

Lemma wf_entry_names n l content :
  wf_entry (Dir n l content) = true → NoDup (entry_name <$> content).
Proof.
  cbn [wf_entry]. intros [Hnd _]%andb_true_iff.
  by apply bool_decide_eq_true in Hnd.
Qed.

Lemma resolve_app fs p q :
  resolve fs (p ++ q) =
  match resolve fs p with Some e => resolve e q | None => None end.
Proof.
  revert fs. induction p as [| x p IH]; intros fs; simpl; [done |].
  destruct fs as [| n l content]; [done |].
  destruct (child content x); [apply IH | done].
Qed.

Lemma wf_resolve fs p e :
  wf_entry fs = true → resolve fs p = Some e → wf_entry e = true.
Proof.
  revert fs. induction p as [| x p IH]; intros fs Hwf; simpl.
  - by intros [= <-].
  - destruct fs as [| n l content]; [done |].
    destruct (child content x) as [c |] eqn:Hc; [| done].
    apply child_In in Hc as [Hc _]. apply IH. by eapply wf_entry_child.
Qed.

(** In a well-formed file system an entry is located where its path
    resolves to. *)
Lemma located_resolve keep e0 rel e :
  wf_entry e0 = true → located keep e0 rel e → resolve e0 rel = Some e.
Proof.
  intros Hwf Hloc.
  induction Hloc as [e | n content c rel e Hc Hk Hloc IH]; [done |].
  cbn [resolve]. rewrite child_unique; [| by eapply wf_entry_names | done].
  apply IH. by eapply wf_entry_child.
Qed.

(** Where the items of a walk are. *)
Lemma walk_item_located keep e :
  ∀ top it, it ∈ walk keep top e →
    ∃ rel n content,
      w_top it = top ++ rel ∧ located keep e rel (Dir n true content) ∧
      w_here it = Dir n true content ∧
      w_dirs it = subdirs keep content ∧ w_files it = nondirs content.
Proof.
  induction e as [n r sz | n l content IH] using entry_ind'; intros top it Hit.
  { by apply elem_of_nil in Hit. }
  destruct l; [| by apply elem_of_nil in Hit].
  rewrite walk_dir_unfold in Hit. apply elem_of_cons in Hit as [-> | Hit].
  - exists [], n, content. rewrite app_nil_r. split_and!; try done. constructor.
  - apply list_elem_of_In, in_flat_map in Hit as (c & Hc & Hit).
    apply list_elem_of_In in Hc, Hit.
    destruct (is_dir c && keep (entry_name c)) eqn:Hkept;
      [| by apply elem_of_nil in Hit].
    apply andb_true_iff in Hkept as [Hdir Hkeep].
    rewrite Forall_forall in IH.
    destruct (IH c Hc _ _ Hit) as (rel & n' & content' & Htop & Hloc & Hrest).
    exists (entry_name c :: rel), n', content'. split_and!; [| | apply Hrest..].
    + rewrite Htop. unfold join. by rewrite <- app_assoc.
    + by econstructor.
Qed.

(** *** No two nodes of the document share an id *)

Lemma filter_snd_nodup {A B} (P : A * B → bool) (l : list (A * B)) :
  NoDup l.*2 → NoDup (List.filter P l).*2.
Proof.
  induction l as [| x l IH]; simpl; [done |]. intros Hnd.
  apply NoDup_cons in Hnd as [Hx Hnd]. destruct (P x); [| auto].
  rewrite fmap_cons. apply NoDup_cons. split; [| auto].
  intros Hin. apply Hx. apply list_elem_of_fmap in Hin as (y & -> & Hy).
  apply list_elem_of_In, filter_In in Hy as [Hy _].
  apply list_elem_of_fmap. exists y. by rewrite list_elem_of_In.
Qed.

Lemma ts_successors_nodup r g n : tree_shaped r g → NoDup (successors g n).
Proof.
  intros Hg. unfold successors. apply filter_snd_nodup.
  pose proof (ts_nodup _ _ Hg) as Hnd. rewrite (ts_ids _ _ Hg) in Hnd.
  by apply NoDup_cons in Hnd as [_ Hnd].
Qed.

Lemma faithful_child_id r g t c :
  tree_shaped r g → faithful g t → c ∈ tree_children t →
  ∃ x, tree_id c = tree_id t ++ [x].
Proof.
  intros Hg [_ Hsucc] Hc.
  assert (Hin : tree_id c ∈ successors g (tree_id t)).
  { rewrite <- Hsucc. apply list_elem_of_fmap. eauto. }
  apply elem_of_successors in Hin. by destruct (ts_edges _ _ Hg _ _ Hin).
Qed.

Lemma faithful_ids_below r g t :
  tree_shaped r g → (∀ s, s ∈ subtrees t → faithful g s) →
  ∀ s, s ∈ subtrees t → tree_id t `prefix_of` tree_id s.
Proof.
  intros Hg. induction t as [i a children IH] using tree_ind'.
  intros Hfaith s Hs.
  apply elem_of_subtrees_node in Hs as [-> | (c & Hc & Hs)]; [done |].
  rewrite Forall_forall in IH.
  destruct (faithful_child_id r g (Node i a children) c) as [x Hx];
    [done | apply Hfaith, subtrees_self | done |].
  simpl in Hx. etrans; [| apply (IH c Hc); [| done]].
  - rewrite Hx. by apply prefix_app_r.
  - intros s' Hs'. apply Hfaith. apply elem_of_subtrees_node. eauto.
Qed.

Lemma siblings_apart i x x' (l : path) :
  i ++ [x] `prefix_of` l → i ++ [x'] `prefix_of` l → x = x'.
Proof.
  intros [k1 ->] [k2 H2]. rewrite <- !app_assoc in H2.
  apply app_inv_head in H2. simpl in H2. by injection H2.
Qed.

Lemma faithful_nodup r g t :
  tree_shaped r g → (∀ s, s ∈ subtrees t → faithful g s) →
  NoDup (tree_ids t).
Proof.
  intros Hg. induction t as [i a children IH] using tree_ind'. intros Hfaith.
  assert (Hchild : ∀ c, c ∈ children → ∃ x, tree_id c = i ++ [x]).
  { intros c Hc.
    by apply (faithful_child_id r g (Node i a children) c);
      [| apply Hfaith, subtrees_self |]. }
  assert (Hsub : ∀ c, c ∈ children → ∀ s, s ∈ subtrees c → faithful g s).
  { intros c Hc s Hs. apply Hfaith. apply elem_of_subtrees_node. eauto. }
  assert (Hbelow : ∀ c s, c ∈ children → s ∈ subtrees c →
                     tree_id c `prefix_of` tree_id s).
  { intros c s Hc Hs. by apply (faithful_ids_below r g c); [| apply Hsub |]. }
  assert (Hids : NoDup (tree_id <$> children)).
  { destruct (Hfaith _ (subtrees_self _)) as [_ Hsucc]. simpl in Hsucc.
    rewrite Hsucc. by eapply ts_successors_nodup. }
  unfold tree_ids. cbn [subtrees]. rewrite fmap_cons. apply NoDup_cons. split.
  - intros Hin. apply list_elem_of_fmap in Hin as (s & Hi & Hs).
    apply list_elem_of_In, in_flat_map in Hs as (c & Hc & Hs).
    apply list_elem_of_In in Hc, Hs. destruct (Hchild c Hc) as [x Hx].
    pose proof (Hbelow c s Hc Hs) as Hp. apply prefix_length in Hp.
    simpl in Hi. rewrite <- Hi, Hx, length_app in Hp. simpl in Hp. lia.
  - rewrite Forall_forall in IH. clear Hfaith.
    induction children as [| c children IHc]; [constructor |].
    cbn [List.flat_map]. rewrite fmap_app. rewrite fmap_cons in Hids.
    apply NoDup_cons in Hids as [Hc Hids]. apply NoDup_app. split_and!.
    + apply (IH c); [by left |]. apply Hsub. by left.
    + intros n Hn Hn'.
      apply list_elem_of_fmap in Hn as (s & -> & Hs).
      apply list_elem_of_fmap in Hn' as (s' & Heq & Hs').
      apply list_elem_of_In, in_flat_map in Hs' as (c' & Hc' & Hs').
      apply list_elem_of_In in Hc', Hs'.
      destruct (Hchild c) as [x Hx]; [by left |].
      destruct (Hchild c') as [x' Hx']; [by right |].
      pose proof (Hbelow c s (list_elem_of_here _ _) Hs) as Hp.
      pose proof (Hbelow c' s' (list_elem_of_further _ _ _ Hc') Hs') as Hp'.
      rewrite Hx in Hp. rewrite Hx', <- Heq in Hp'.
      pose proof (siblings_apart _ _ _ _ Hp Hp') as ->.
      apply Hc. rewrite Hx, <- Hx'. apply list_elem_of_fmap. eauto.
    + apply IHc; [| | | | done].
      * intros c' Hc'. apply IH. by right.
      * intros c' Hc'. apply Hchild. by right.
      * intros c' Hc'. apply Hsub. by right.
      * intros c' s' Hc'. apply Hbelow. by right.
Qed.

(** * The claims *)

(** C1 (as stated, refuted): on the example tree with [B] ignored and no
    deadline the claim wants a root of size 4 with the single child
    [a.txt]; the root that is built does not have size 4. *)
Lemma C1_root_size_is_not_4 :
  ¬ ∃ t, (build_tree_json tick_clock example_fs [] "A"
            (Some (IgnoreIter ["B"])) None (World 0 [])).1 = Ok t ∧
         size_bytes (tree_attrs t) = Some (Some 4) ∧
         tree_ids t = [["A"]; ["A"; "a.txt"]].
Proof.
  intros (t & Ht & Hsz & _). vm_compute in Ht. injection Ht as <-.
  discriminate Hsz.
Qed.

(** C1 (amended): on the example tree with [B] in the ignore set and no
    deadline, the root [A] has [a.txt] as its only child and no node for
    [B] or [b.txt] appears, but its size is 10: the size of a folder counts
    the files of ignored directories too. *)
Theorem C1_ignored_B_is_pruned_but_counted clock w :
  (build_tree_json clock example_fs [] "A" (Some (IgnoreIter ["B"])) None w).1
  = Ok (Node ["A"] (folder_attrs "A" (Some 10))
          [Node ["A"; "a.txt"] (file_attrs "a.txt" (Some 4)) []]).
Proof. vm_compute. reflexivity. Qed.

(** C3 (the code at the failing input): with a budget of 5 ticks and a
    clock that advances by 10 per read, the deadline has passed when the
    size of [A] is computed (it is absent), and the size of the folder
    [locked], computed after that, is reported as 0, not as absent. *)
Theorem C3_unlistable_folder_after_deadline :
  (build_tree_json fast_clock locked_fs [] "A" None (Some 5) (World 0 [])).1
  = Ok (Node ["A"] (folder_attrs "A" None)
          [Node ["A"; "locked"] (folder_attrs "locked" (Some 0)) []]).
Proof. vm_compute. reflexivity. Qed.

(** The part of C3 that the code does keep: with a clock that never goes
    back, once a read was past the deadline the size of every folder that
    can be listed is absent. *)
Lemma deadline_monotone clock d k path n content w :
  (∀ i j, (i ≤ j)%nat → clock i ≤ clock j) →
  d < clock k → (k ≤ ticks w)%nat →
  (get_folder_size clock path (Dir n true content) (Some d) w).1 = None.
Proof.
  intros Hmono Hlate Hk. apply get_folder_size_late.
  specialize (Hmono k (ticks w) Hk). lia.
Qed.

(** C4: a folder-size computation makes one deadline check per unit of work
    (each directory entered, each file examined) and either goes through
    all of them and returns the complete sum, or stops at the first check
    that finds the deadline passed and returns [None]; it never returns a
    partial sum. *)
Theorem C4_complete_sum_or_none clock path e deadline w :
  let r := get_folder_size clock path e deadline w in
  let units := work_units (walk (fun _ => true) path e) in
  (r.1 = Some (folder_bytes e) ∧
   completes clock deadline (ticks w) units r.2) ∨
  (r.1 = None ∧ aborts clock deadline (ticks w) units r.2).
Proof.
  intros r units. subst r units.
  destruct (get_folder_size clock path e deadline w) as [r w'] eqn:Hrun.
  by destruct (get_folder_size_spec _ _ _ _ _ _ _ Hrun) as [_ H].
Qed.

(** C10: a single string as [ignore] argument gives the singleton ignore
    set: exactly the directories of that name are filtered out, and both
    [build_tree_json] and [build_dod] do what they do for the one-element
    list. *)
Theorem C10_single_string_is_one_name s :
  _normalize_ignores (Some (IgnoreStr s)) = {[ s ]} ∧
  (∀ d, not_ignored (_normalize_ignores (Some (IgnoreStr s))) d = false ↔ d = s) ∧
  (∀ clock fs cwd dir max_seconds w,
     build_tree_json clock fs cwd dir (Some (IgnoreStr s)) max_seconds w =
     build_tree_json clock fs cwd dir (Some (IgnoreIter [s])) max_seconds w) ∧
  (∀ clock fs dir w,
     build_dod clock fs dir (Some (IgnoreStr s)) w =
     build_dod clock fs dir (Some (IgnoreIter [s])) w).
Proof.
  split_and!; [| | | intros; unfold build_dod; simpl _normalize_ignores;
                     by rewrite (right_id_L ∅ (∪))].
  - reflexivity.
  - intros d. unfold not_ignored. simpl.
    rewrite bool_decide_eq_false. split.
    + intros H. apply dec_stable in H. by apply elem_of_singleton in H.
    + intros -> H. apply H. by apply elem_of_singleton.
  - intros. unfold build_tree_json, build_graph. simpl _normalize_ignores.
    by rewrite (right_id_L ∅ (∪)).
Qed.

(** The characters of a string are not what the ignore set holds. *)
Example single_string_not_split :
  _normalize_ignores (Some (IgnoreStr "ab")) ≠
  _normalize_ignores (Some (IgnoreIter ["a"; "b"])).
Proof.
  simpl. intros H. assert (Ha : "a" ∈ ({[ "ab" ]} : gset string)).
  { rewrite H. set_solver. }
  by apply elem_of_singleton in Ha.
Qed.

(** ** Claims about the document of a build *)

Lemma built_node clock fs ignore_set root dl g w' n a :
  built clock fs ignore_set root dl g w' → (n, a) ∈ nodes g →
  (walkable (resolve fs root) = false ∧ n = root ∧
   a = Attrs (Some folder) (Some (basename root)) None) ∨
  (∃ e0, resolve fs root = Some e0 ∧ walkable (Some e0) = true ∧
         node_ok clock dl (not_ignored ignore_set) e0 root (n, a)).
Proof.
  intros Hb Hn. destruct (walkable (resolve fs root)) eqn:Hwalk.
  - right. destruct (resolve fs root) as [e0 |] eqn:Hres; [| done].
    exists e0. split_and!; [done | done |].
    pose proof (built_nodes _ _ _ _ _ _ _ Hb e0 Hres Hwalk) as Hall.
    rewrite Forall_forall in Hall. by apply Hall.
  - left. rewrite (built_bare _ _ _ _ _ _ _ Hb Hwalk) in Hn.
    apply list_elem_of_singleton in Hn as [= -> ->]. by split_and!.
Qed.

Lemma attrs_ok_folder clock dl r rel e a :
  attrs_ok clock dl r rel e a → type a = Some folder → is_dir e = true.
Proof. destruct e; [by intros -> | done]. Qed.

(** C6 (as stated, refuted): the document built at [/venv] with the default
    ignore set has nodes whose paths hold ignored names: the root itself,
    and the file [bin]. *)
Lemma C6_ignored_names_in_paths :
  ∃ t s1 s2,
    (build_tree_json tick_clock venv_fs [] "venv" None None (World 0 [])).1
      = Ok t ∧
    s1 ∈ subtrees t ∧ "venv" ∈ tree_id s1 ∧
    "venv" ∈ _normalize_ignores None ∧
    s2 ∈ subtrees t ∧ "bin" ∈ tree_id s2 ∧
    "bin" ∈ _normalize_ignores None.
Proof.
  eexists _, (Node ["venv"] _ _), (Node ["venv"; "bin"] _ _).
  split; [vm_compute; reflexivity |].
  split_and!.
  - by left.
  - by left.
  - unfold _normalize_ignores, DEFAULT_IGNORES. set_solver.
  - right. by left.
  - right. by left.
  - unfold _normalize_ignores, DEFAULT_IGNORES. set_solver.
Qed.

(** C6 (amended): for every ignore set [I] and every build, every node of
    the document lies below the root through directories whose names are
    not in [I], and no folder node other than the root has a name in [I];
    the segments of the root path itself and the names of files are not
    filtered. *)
Theorem C6_ignored_directories_are_pruned
    clock fs cwd dir ignore max_seconds w :
  ∃ t, (build_tree_json clock fs cwd dir ignore max_seconds w).1 = Ok t ∧
    ∀ s, s ∈ subtrees t →
      ∃ rel, tree_id s = abspath cwd dir ++ rel ∧
        Forall (fun x => x ∉ _normalize_ignores ignore) (List.removelast rel) ∧
        (type (tree_attrs s) = Some folder →
         Forall (fun x => x ∉ _normalize_ignores ignore) rel).
Proof.
  destruct (build_tree_json_spec clock fs cwd dir ignore max_seconds w)
    as (g & w' & t & dl & Hrun & _ & Hb & _ & _ & Ht).
  exists t. rewrite Hrun. split; [done |]. intros s Hs.
  pose proof (tree_node_in_graph _ _ _ _ (built_shaped _ _ _ _ _ _ _ Hb) Ht Hs)
    as Hn.
  destruct (built_node _ _ _ _ _ _ _ _ _ Hb Hn)
    as [(_ & Hid & _) | (e0 & _ & _ & rel & e & Hid & Hloc & Ha)].
  - exists []. rewrite app_nil_r. by split_and!.
  - exists rel. simpl in Hid, Ha. split; [done |].
    destruct (located_kept _ _ _ _ Hloc) as [H1 H2].
    assert (Hkeep : ∀ l, Forall (fun x =>
                not_ignored (_normalize_ignores ignore) x = true) l →
              Forall (fun x => x ∉ _normalize_ignores ignore) l).
    { intros l Hl. eapply Forall_impl; [exact Hl |]. intros x Hx.
      by apply bool_decide_eq_true in Hx. }
    split; [by apply Hkeep |]. intros Hty. apply Hkeep, H2.
    by eapply attrs_ok_folder.
Qed.

(** C8: the document of a build from [P] has the canonical absolute form
    of [P] as the id of its root, no two of its nodes share an id, and the
    root is the one node without a parent: a node of the document is the
    child of no node exactly when it is the root. *)
Theorem C8_rooted_at_abspath clock fs cwd dir ignore max_seconds w :
  ∃ t, (build_tree_json clock fs cwd dir ignore max_seconds w).1 = Ok t ∧
    tree_id t = abspath cwd dir ∧
    NoDup (tree_ids t) ∧
    ∀ n, n ∈ tree_ids t →
      ((∀ u, (u, n) ∉ tree_edges t) ↔ n = abspath cwd dir).
Proof.
  destruct (build_tree_json_spec clock fs cwd dir ignore max_seconds w)
    as (g & w' & t & dl & Hrun & _ & Hb & _ & _ & Ht).
  pose proof (built_shaped _ _ _ _ _ _ _ Hb) as Hg.
  exists t. rewrite Hrun. split; [done |].
  destruct (tree_data_faithful _ _ _ Ht) as [Hroot Hfaith].
  split; [done |]. split; [by eapply faithful_nodup |]. intros n Hn.
  apply list_elem_of_fmap in Hn as (s & -> & Hs).
  pose proof (tree_node_in_graph _ _ _ _ Hg Ht Hs) as Hin.
  assert (Hid : tree_id s ∈ node_ids g).
  { apply list_elem_of_fmap. by exists (tree_id s, tree_attrs s). }
  split.
  - intros Hnone. destruct (decide (tree_id s = abspath cwd dir)) as [| Hne];
      [done |].
    destruct (ts_parent_edge _ _ _ Hg Hid Hne) as (u & x & _ & He & _).
    exfalso. apply (Hnone u). by apply (tree_edges_graph _ _ _ _ _ Hg Ht).
  - intros -> u Hu. apply (tree_edges_graph _ _ _ _ _ Hg Ht) in Hu.
    by eapply ts_root_no_parent.
Qed.

Lemma print_all_spec lines w :
  print_all lines w = (tt, World (ticks w) (stdout w ++ lines)).
Proof.
  unfold print_all. revert w. induction lines as [| m lines IH]; intros w.
  - simpl. unfold ret. destruct w. simpl. by rewrite app_nil_r.
  - cbn [foldM]. unfold bind, print at 1. rewrite IH. simpl.
    by rewrite <- app_assoc.
Qed.

Lemma budget_of_spec args :
  (if bool_decide (args_max_seconds args ≠ 0)
      && Z.ltb 0 (args_max_seconds args)
   then Some (args_max_seconds args) else None) = budget_of args.
Proof.
  unfold budget_of. destruct (Z.ltb_spec 0 (args_max_seconds args)).
  - by rewrite bool_decide_eq_true_2 by lia.
  - by rewrite andb_false_r.
Qed.

(** The run of [main] on a path that is not a directory. *)
Lemma main_bad_root clock fs cwd args w :
  isdir fs (abspath cwd (args_path args)) = false →
  main clock fs cwd args w =
  (Raise (SystemExit "Not a directory: " (abspath cwd (args_path args))),
   World (ticks w) (stdout w ++ opening_lines (abspath cwd (args_path args)))).
Proof.
  intros Hdir. unfold main. cbv zeta.
  unfold bind at 1. rewrite print_all_spec.
  unfold bind at 1. rewrite print_all_spec. simpl ticks. simpl stdout.
  rewrite Hdir. unfold opening_lines. by rewrite app_assoc.
Qed.

(** The run of [main] on a directory, in terms of the build it starts. *)
Lemma main_run clock fs cwd args w :
  isdir fs (abspath cwd (args_path args)) = true →
  main clock fs cwd args w =
  match makedirs (output_dir_of cwd args) fs with
  | None => (Raise (OSError (output_dir_of cwd args)), build_start cwd args w)
  | Some fs' =>
      match build_tree_json clock fs' cwd
              (path_string (abspath cwd (args_path args))) (ignore_of args)
              (budget_of args) (build_start cwd args w) with
      | (Raise e, w1) => (Raise e, w1)
      | (Ok t, w1) =>
          if isdir fs' (join (output_dir_of cwd args) "data.json")
          then (Raise (OSError (join (output_dir_of cwd args) "data.json")), w1)
          else (Ok (join (output_dir_of cwd args) "data.json", t),
                World (ticks w1)
                  (stdout w1 ++
                   closing_lines (join (output_dir_of cwd args) "data.json")))
      end
  end.
Proof.
  intros Hdir. unfold main. cbv zeta.
  unfold bind at 1. rewrite print_all_spec.
  unfold bind at 1. rewrite print_all_spec. simpl ticks. simpl stdout.
  rewrite Hdir. cbn [negb]. rewrite budget_of_spec.
  unfold write_tree_json. cbv zeta. unfold bind at 1 2, print at 1.
  simpl ticks. simpl stdout.
  fold (ignore_of args). cbn [from_option id]. fold (output_dir_of cwd args).
  replace (World (ticks w) _) with (build_start cwd args w).
  2:{ unfold build_start, opening_lines. by rewrite <- !app_assoc. }
  destruct (makedirs (output_dir_of cwd args) fs) as [fs' |]; [| done].
  unfold bind at 1.
  destruct (build_tree_json clock fs' cwd _ _ _ _) as [[t | e] w1]; [| done].
  destruct (isdir fs' _); [done |].
  unfold ret at 1. cbv beta iota. unfold bind at 1.
  by rewrite print_all_spec.
Qed.



(** *** Which entries have a node *)

Lemma located_snoc_inv keep e0 rel x e :
  located keep e0 (rel ++ [x]) e →
  ∃ n content,
    located keep e0 rel (Dir n true content) ∧ e ∈ content ∧
    entry_name e = x ∧ (is_dir e = true → keep x = true).
Proof.
  revert e0. induction rel as [| y rel IH]; intros e0 Hloc; simpl in Hloc.
  - inversion Hloc as [| n content c rel' e' Hc Hk Hloc']; subst.
    inversion Hloc'; subst. exists n, content.
    split_and!; [constructor | done | done | done].
  - inversion Hloc as [| n content c rel' e' Hc Hk Hloc']; subst.
    destruct (IH _ Hloc') as (n' & content' & Hp & He & Hx & Hkeep).
    exists n', content'. split_and!; [| done | done | done].
    by econstructor.
Qed.

Lemma located_through_dir keep c rel n l content :
  located keep c rel (Dir n l content) → is_dir c = true.
Proof. destruct c; [| done]. by intros [_ ?]%located_file. Qed.

(** Every directory located below the top of a walk has its item. *)
Lemma located_walk_item keep e rel n content :
  located keep e rel (Dir n true content) →
  ∀ top, ∃ it,
    it ∈ walk keep top e ∧ w_top it = top ++ rel ∧
    w_dirs it = subdirs keep content ∧ w_files it = nondirs content.
Proof.
  intros Hloc. remember (Dir n true content) as d eqn:Hd.
  induction Hloc as [e | n' content' c rel e Hc Hk Hloc IH]; intros top; subst.
  - eexists. rewrite walk_dir_unfold. split; [by left |]. simpl.
    by rewrite app_nil_r.
  - pose proof (located_through_dir _ _ _ _ _ _ Hloc) as Hdir.
    destruct (IH eq_refl (join top (entry_name c))) as (it & Hit & Htop & Hrest).
    exists it. split.
    + rewrite walk_dir_unfold. right. apply list_elem_of_In, in_flat_map.
      exists c. split; [by apply list_elem_of_In |].
      rewrite Hdir, (Hk Hdir). simpl. by apply list_elem_of_In.
    + split; [| done]. rewrite Htop. unfold join. by rewrite <- app_assoc.
Qed.

Lemma kept_child_listed keep content c :
  c ∈ content → (is_dir c = true → keep (entry_name c) = true) →
  c ∈ subdirs keep content ++ nondirs content.
Proof.
  intros Hc Hk. apply elem_of_app. destruct (is_dir c) eqn:Hd.
  - left. apply elem_of_subdirs. auto.
  - right. by apply elem_of_nondirs.
Qed.

Lemma built_edge clock fs ignore_set root dl g w' e0 rel n content c :
  built clock fs ignore_set root dl g w' →
  resolve fs root = Some e0 →
  located (not_ignored ignore_set) e0 rel (Dir n true content) →
  c ∈ content →
  (is_dir c = true → not_ignored ignore_set (entry_name c) = true) →
  (root ++ rel, root ++ rel ++ [entry_name c]) ∈ edges g.
Proof.
  intros Hb Hres Hloc Hc Hk.
  destruct (located_walk_item _ _ _ _ _ Hloc root) as (it & Hit & Htop & Hd & Hf).
  pose proof (built_done _ _ _ _ _ _ _ Hb) as Hdone.
  unfold os_walk in Hdone. rewrite Hres in Hdone.
  rewrite Forall_forall in Hdone. destruct (Hdone it Hit) as [Hedges _].
  specialize (Hedges c). rewrite Hd, Hf, Htop in Hedges.
  unfold join in Hedges. rewrite <- app_assoc in Hedges.
  apply Hedges. by apply kept_child_listed.
Qed.

Lemma built_node_ids clock fs ignore_set root dl g w' e0 n :
  built clock fs ignore_set root dl g w' →
  resolve fs root = Some e0 → walkable (Some e0) = true →
  n ∈ node_ids g ↔
  ∃ rel e, n = root ++ rel ∧ located (not_ignored ignore_set) e0 rel e.
Proof.
  intros Hb Hres Hwalk. pose proof (built_shaped _ _ _ _ _ _ _ Hb) as Hg. split.
  - intros Hn. apply list_elem_of_fmap in Hn as ([n' a] & -> & Hn). simpl.
    destruct (built_node _ _ _ _ _ _ _ _ _ Hb Hn)
      as [(Hbare & _) | (e0' & Hres' & _ & rel & e & Hid & Hloc & _)].
    + rewrite Hres in Hbare. congruence.
    + rewrite Hres in Hres'. injection Hres' as <-. eauto.
  - intros (rel & e & -> & Hloc).
    destruct rel as [| x rel _] using rev_ind.
    + rewrite app_nil_r. by eapply ts_root.
    + destruct (located_snoc_inv _ _ _ _ _ Hloc)
        as (nm & content & Hp & He & <- & Hk).
      eapply ts_target; [done |]. by eapply built_edge.
Qed.

(** In a well-formed file system, the node at the place of an entry has
    the attributes of that entry. *)
Lemma built_node_entry clock fs ignore_set root dl g w' e0 rel e a :
  built clock fs ignore_set root dl g w' → wf_entry fs = true →
  resolve fs root = Some e0 → walkable (Some e0) = true →
  (root ++ rel, a) ∈ nodes g →
  located (not_ignored ignore_set) e0 rel e →
  attrs_ok clock dl root rel e a.
Proof.
  intros Hb Hwf Hres Hwalk Hn Hloc.
  destruct (built_node _ _ _ _ _ _ _ _ _ Hb Hn)
    as [(Hbare & _) | (e0' & Hres' & _ & rel' & e' & Hid & Hloc' & Ha)].
  { rewrite Hres in Hbare. congruence. }
  rewrite Hres in Hres'. injection Hres' as <-. simpl in Hid, Ha.
  apply app_inv_head in Hid as <-.
  pose proof (wf_resolve _ _ _ Hwf Hres) as Hwf0.
  pose proof (located_resolve _ _ _ _ Hwf0 Hloc) as H1.
  pose proof (located_resolve _ _ _ _ Hwf0 Hloc') as H2.
  rewrite H1 in H2. by injection H2 as <-.
Qed.

(** *** Absent folder sizes and the clock reads of the build *)














Lemma counted_unreadable f :
  is_dir f = false → getsize f = None → counted f = 0.
Proof.
  destruct f as [n r sz |]; [| done]. simpl. intros _ ->.
  unfold file_bytes. simpl. by destruct r.
Qed.

Lemma folder_bytes_without n before f after :
  is_dir f = false → getsize f = None →
  folder_bytes (Dir n true (before ++ f :: after)) =
  folder_bytes (Dir n true (before ++ after)).
Proof.
  intros Hdir Hsz. unfold folder_bytes. cbn [is_dir counted].
  rewrite !List.map_app, !sum_list_app. cbn [List.map sum_list fold_right].
  rewrite counted_unreadable by done. unfold sum_list. lia.
Qed.

(** C2 (as stated, refuted): the unreadable file [a.txt] is a child of its
    parent in the document (with an absent size). *)
Lemma C2_unreadable_file_is_a_child :
  ∃ t, (build_tree_json tick_clock unreadable_fs [] "A" None None
          (World 0 [])).1 = Ok t ∧
       tree_id <$> tree_children t = [["A"; "a.txt"]; ["A"; "c.txt"]].
Proof. eexists. split; [vm_compute; reflexivity | reflexivity]. Qed.

(** C2 (amended): in a well-formed file system, a file that the walk lists
    and whose size cannot be read is still a child of its parent node, with
    an absent size; a warning with its path is printed; the size of the
    parent, when present, is the sum over the other entries; and the build
    returns a document. *)
Theorem C2_unreadable_file_is_kept
    clock fs cwd dir ignore max_seconds ticks0 it f :
  wf_entry fs = true →
  it ∈ os_walk (not_ignored (_normalize_ignores ignore)) fs (abspath cwd dir) →
  f ∈ w_files it → getsize f = None →
  ∃ t w',
    build_tree_json clock fs cwd dir ignore max_seconds (World ticks0 [])
      = (Ok t, w') ∧
    Warning (join (w_top it) (entry_name f)) ∈ stdout w' ∧
    ∃ parent c,
      parent ∈ subtrees t ∧ tree_id parent = w_top it ∧
      c ∈ tree_children parent ∧
      tree_id c = join (w_top it) (entry_name f) ∧
      tree_attrs c = file_attrs (entry_name f) None ∧
      ∀ n before after, w_here it = Dir n true (before ++ f :: after) →
        size_bytes (tree_attrs parent) = Some None ∨
        size_bytes (tree_attrs parent) =
          Some (Some (folder_bytes (Dir n true (before ++ after)))).
Proof.
  intros Hwf Hit Hf Hsz.
  destruct (build_tree_json_spec clock fs cwd dir ignore max_seconds
              (World ticks0 []))
    as (g & w' & t & dl & Hrun & _ & Hb & _ & _ & Ht).
  pose proof (built_shaped _ _ _ _ _ _ _ Hb) as Hg.
  exists t, w'. split; [done |].
  pose proof (built_done _ _ _ _ _ _ _ Hb) as Hdone.
  rewrite Forall_forall in Hdone. destruct (Hdone it Hit) as [Hedges Hwarn].
  split; [by apply Hwarn |].
  assert (He : (w_top it, join (w_top it) (entry_name f)) ∈ edges g).
  { apply Hedges. apply elem_of_app. by right. }
  unfold os_walk in Hit.
  destruct (resolve fs (abspath cwd dir)) as [e0 |] eqn:Hres;
    [| by apply elem_of_nil in Hit].
  assert (Hwalk : walkable (Some e0) = true).
  { destruct e0 as [| n0 [] c0]; try done; by apply elem_of_nil in Hit. }
  destruct (walk_item_located _ _ _ _ Hit)
    as (rel & n & content & Htop & Hloc & Hhere & _ & Hfiles).
  rewrite Hfiles in Hf. apply elem_of_nondirs in Hf as [Hf Hdir].
  destruct (ts_edges _ _ Hg _ _ He) as [Hp _].
  destruct (tree_data_complete _ _ _ _ Hg Ht Hp) as (parent & Hparent & Hpid).
  destruct (tree_data_faithful _ _ _ Ht) as [_ Hfaith].
  destruct (Hfaith parent Hparent) as [Hpa Hsucc].
  assert (Hc : join (w_top it) (entry_name f) ∈ tree_id <$> tree_children parent).
  { rewrite Hsucc, Hpid. by apply elem_of_successors. }
  apply list_elem_of_fmap in Hc as (c & Hcid & Hc).
  exists parent, c. split_and!; [done | done | done | done | |].
  - assert (Hcs : c ∈ subtrees t) by by eapply subtrees_child.
    pose proof (tree_node_in_graph _ _ _ _ Hg Ht Hcs) as Hn.
    rewrite <- Hcid, Htop in Hn. unfold join in Hn. rewrite <- app_assoc in Hn.
    assert (Hk : is_dir f = true →
              not_ignored (_normalize_ignores ignore) (entry_name f) = true)
      by (by rewrite Hdir).
    pose proof (built_node_entry _ _ _ _ _ _ _ _ _ _ _ Hb Hwf Hres Hwalk Hn
                  (located_snoc _ _ _ _ _ _ Hloc Hf Hk)) as Ha.
    destruct f as [fn fr fsz |]; [| done]. simpl in Hsz. subst fsz. exact Ha.
  - intros n' before after Hhere'. rewrite Hhere in Hhere'.
    injection Hhere' as -> ->.
    pose proof (tree_node_in_graph _ _ _ _ Hg Ht Hparent) as Hn.
    rewrite Hpid, Htop in Hn.
    pose proof (built_node_entry _ _ _ _ _ _ _ _ _ _ _ Hb Hwf Hres Hwalk Hn Hloc)
      as (sz & Hok & ->).
    simpl. rewrite <- (folder_bytes_without n' before f after) by done.
    destruct Hok as [(-> & _) | ->]; auto.
Qed.

(** C2 at the example with the unreadable [a.txt]. *)
Lemma C2_unreadable_file_is_kept_witness :
  let it := WalkItem ["A"]
              (Dir "A" true [File "a.txt" true None; File "c.txt" true (Some 5)])
              [] [File "a.txt" true None; File "c.txt" true (Some 5)] in
  let f := File "a.txt" true None in
  wf_entry unreadable_fs = true ∧
  it ∈ os_walk (not_ignored (_normalize_ignores None)) unreadable_fs
         (abspath [] "A") ∧
  f ∈ w_files it ∧ getsize f = None ∧
  ∃ t w',
    build_tree_json tick_clock unreadable_fs [] "A" None None (World 0 [])
      = (Ok t, w') ∧
    Warning (join (w_top it) (entry_name f)) ∈ stdout w' ∧
    ∃ parent c,
      parent ∈ subtrees t ∧ tree_id parent = w_top it ∧
      c ∈ tree_children parent ∧
      tree_id c = join (w_top it) (entry_name f) ∧
      tree_attrs c = file_attrs (entry_name f) None ∧
      ∀ n before after, w_here it = Dir n true (before ++ f :: after) →
        size_bytes (tree_attrs parent) = Some None ∨
        size_bytes (tree_attrs parent) =
          Some (Some (folder_bytes (Dir n true (before ++ after)))).
Proof.
  intros it f.
  assert (H1 : wf_entry unreadable_fs = true) by reflexivity.
  assert (H2 : it ∈ os_walk (not_ignored (_normalize_ignores None))
                      unreadable_fs (abspath [] "A")) by (by left).
  assert (H3 : f ∈ w_files it) by (by left).
  assert (H4 : getsize f = None) by reflexivity.
  split_and!; [exact H1 | exact H2 | exact H3 | exact H4 |].
  exact (C2_unreadable_file_is_kept tick_clock unreadable_fs [] "A" None None
           O it f H1 H2 H3 H4).
Defined.

(** ** Two runs on the same file system *)








Section TwoRuns.

Variables clock1 clock2 : nat → Z.
Variables dl1 dl2 : option Z.
Variable Rsz : option Z → option Z → Prop.
Hypothesis Rsz_sizes : ∀ p e w1 w2,
  Rsz (get_folder_size clock1 p e dl1 w1).1 (get_folder_size clock2 p e dl2 w2).1.








End TwoRuns.

Lemma build_graph_loop clock fs cwd dir ignore max_seconds w :
  ∃ dl w1,
    (build_graph clock fs cwd dir ignore max_seconds w).1 =
      (abspath cwd dir,
       with_root (abspath cwd dir)
         (foldM (visit clock dl)
            (os_walk (not_ignored (_normalize_ignores ignore)) fs
               (abspath cwd dir)) empty_graph w1).1) ∧
    ((∀ m, max_seconds = Some m → m ≤ 0) → dl = None).
Proof.
  unfold build_graph, abspath_path. unfold bind at 1, print at 1.
  match goal with |- context [World (ticks w) ?out] =>
    set (w0 := World (ticks w) out) end.
  unfold bind at 1.
  destruct (start_deadline_spec clock max_seconds w0)
    as (dl & w1 & -> & _ & Hdl).
  exists dl, w1. unfold bind, ret, with_root.
  destruct (foldM (visit clock dl) _ empty_graph w1) as [g w2]. simpl.
  split; [done |]. intros Hm.
  destruct Hdl as [(-> & _) | (m & -> & Hpos & _)]; [done |].
  specialize (Hm m eq_refl). lia.
Qed.











(** * Further properties *)

(** ** [get_folder_size] without a deadline *)

Lemma expired_none clock w : expired clock None w = (false, w).
Proof. reflexivity. Qed.

Ltac same_sum :=
  match goal with
  | |- (Some ?a, _) = (Some ?b, _) =>
      replace b with a by (unfold sum_list, items_bytes; simpl; lia)
  end.

Lemma scan_files_no_deadline clock root files total w :
  scan_files clock None root files total w =
  (Some (total + sum_list (List.map file_bytes files)),
   World (ticks w) (stdout w ++ file_warnings root files)).
Proof.
  revert total w. induction files as [| f files IH]; intros total w.
  - simpl. unfold ret. destruct w. simpl. same_sum. by rewrite app_nil_r.
  - rewrite scan_files_cons, expired_none.
    unfold file_warnings, file_bytes in *.
    cbn [List.flat_map List.map sum_list fold_right].
    destruct (isfile f); [destruct (getsize f) as [n |] eqn:Hn |].
    + rewrite IH. rewrite bool_decide_eq_false_2 by done. simpl.
      by same_sum.
    + rewrite IH. simpl. same_sum. by rewrite <- app_assoc.
    + rewrite IH. simpl. by same_sum.
Qed.

Lemma scan_items_no_deadline clock items total w :
  scan_items clock None items total w =
  (Some (total + items_bytes items),
   World (ticks w) (stdout w ++ size_warnings items)).
Proof.
  revert total w. induction items as [| it items IH]; intros total w.
  - simpl. unfold ret. destruct w. simpl. same_sum. by rewrite app_nil_r.
  - rewrite scan_items_cons, expired_none, scan_files_no_deadline, IH.
    rewrite items_bytes_cons. simpl. same_sum. by rewrite <- app_assoc.
Qed.

(** X1: without a deadline [get_folder_size] returns the complete sum,
    reads no clock, and prints exactly one warning for each regular file of
    the walk whose size cannot be read, in the order of the walk; a
    non-regular entry is skipped silently. *)
Theorem get_folder_size_no_deadline clock path e w :
  get_folder_size clock path e None w =
  (Some (folder_bytes e),
   World (ticks w)
     (stdout w ++ size_warnings (walk (fun _ => true) path e))).
Proof.
  unfold get_folder_size.
  by rewrite scan_items_no_deadline, walk_all_bytes, Z.add_0_l.
Qed.

(** ** Clock reads of a build without a budget *)

Lemma keeps_ticks_ret {A} (a : A) : keeps_ticks (ret a).
Proof. by intros w. Qed.

Lemma keeps_ticks_print m : keeps_ticks (print m).
Proof. by intros w. Qed.

Lemma keeps_ticks_bind {A B} (c : M A) (k : A → M B) :
  keeps_ticks c → (∀ a, keeps_ticks (k a)) → keeps_ticks (bind c k).
Proof.
  intros Hc Hk w. unfold bind. specialize (Hc w).
  destruct (c w) as [a w1]. simpl in Hc. by rewrite Hk.
Qed.

Lemma keeps_ticks_foldM {A B} (f : B → A → M B) l b :
  (∀ b x, keeps_ticks (f b x)) → keeps_ticks (foldM f l b).
Proof.
  intros Hf. revert b. induction l as [| x l IH]; intros b.
  - apply keeps_ticks_ret.
  - cbn [foldM]. apply keeps_ticks_bind; auto.
Qed.

Lemma keeps_ticks_get_folder_size clock path e :
  keeps_ticks (get_folder_size clock path e None).
Proof. intros w. unfold get_folder_size. by rewrite scan_items_no_deadline. Qed.

Lemma keeps_ticks_try_getsize full_path f :
  keeps_ticks (try_getsize full_path f).
Proof.
  unfold try_getsize. destruct (getsize f); [apply keeps_ticks_ret |].
  apply keeps_ticks_bind; [apply keeps_ticks_print |].
  intros _. apply keeps_ticks_ret.
Qed.

Lemma keeps_ticks_visit clock g it : keeps_ticks (visit clock None g it).
Proof.
  unfold visit. cbv zeta. apply keeps_ticks_bind.
  { destruct (has_node g _); [apply keeps_ticks_ret |].
    apply keeps_ticks_bind; [apply keeps_ticks_get_folder_size |].
    intros sz. apply keeps_ticks_ret. }
  intros g1. apply keeps_ticks_bind.
  - apply keeps_ticks_foldM. intros g2 d. unfold add_subdir. cbv zeta.
    apply keeps_ticks_bind; [| intros g3; apply keeps_ticks_ret].
    destruct (has_node g2 _); [apply keeps_ticks_ret |].
    apply keeps_ticks_bind; [apply keeps_ticks_get_folder_size |].
    intros sz. apply keeps_ticks_ret.
  - intros g2. apply keeps_ticks_foldM. intros g3 f. unfold add_file.
    cbv zeta. apply keeps_ticks_bind; [apply keeps_ticks_try_getsize |].
    intros sz. apply keeps_ticks_ret.
Qed.

Lemma start_deadline_disabled clock max_seconds w :
  (∀ m, max_seconds = Some m → m ≤ 0) →
  start_deadline clock max_seconds w = (None, w).
Proof.
  intros Hm. unfold start_deadline. destruct max_seconds as [m |]; [| done].
  specialize (Hm m eq_refl). destruct (Z.ltb_spec 0 m); [lia | done].
Qed.

Lemma keeps_ticks_build_tree_json clock fs cwd dir ignore max_seconds :
  (∀ m, max_seconds = Some m → m ≤ 0) →
  keeps_ticks (build_tree_json clock fs cwd dir ignore max_seconds).
Proof.
  intros Hm w. unfold build_tree_json, build_graph. cbv zeta.
  unfold bind at 1 2, print at 1. unfold bind at 1.
  rewrite start_deadline_disabled by done. unfold bind at 1.
  match goal with |- context [foldM ?f ?l ?g ?w0] =>
    pose proof (keeps_ticks_foldM f l g (keeps_ticks_visit clock) w0) as Hloop;
    destruct (foldM f l g w0) as [g1 w1]
  end.
  simpl in *. done.
Qed.

(** X2: with the budget absent or not positive, [build_tree_json] reads no
    clock at all, and no folder node of its document has a null size. *)
Theorem build_without_budget clock fs cwd dir ignore max_seconds w :
  (∀ m, max_seconds = Some m → m ≤ 0) →
  ∃ t w',
    build_tree_json clock fs cwd dir ignore max_seconds w = (Ok t, w') ∧
    ticks w' = ticks w ∧
    ∀ s, s ∈ subtrees t → type (tree_attrs s) = Some folder →
         size_bytes (tree_attrs s) ≠ Some None.
Proof.
  intros Hm.
  destruct (build_tree_json_spec clock fs cwd dir ignore max_seconds w)
    as (g & w' & t & dl & Hrun & _ & Hb & Hdl & _ & Ht).
  exists t, w'. split; [done |]. split.
  { pose proof (keeps_ticks_build_tree_json clock fs cwd dir ignore
                  max_seconds Hm w) as H. by rewrite Hrun in H. }
  intros s Hs Hty.
  pose proof (tree_node_in_graph _ _ _ _ (built_shaped _ _ _ _ _ _ _ Hb) Ht Hs)
    as Hn.
  destruct (built_node _ _ _ _ _ _ _ _ _ Hb Hn)
    as [(_ & _ & ->) | (e0 & _ & _ & rel & e & _ & _ & Ha)]; [done |].
  simpl in Ha. destruct e as [| n l content].
  { rewrite Ha in Hty. done. }
  destruct Ha as (sz & Hsz & ->). simpl.
  destruct Hsz as [(_ & d & k & Hd & _) | ->]; [| done].
  rewrite (Hdl Hm) in Hd. done.
Qed.

(** X2 at the example tree with a budget of 0. *)
Lemma build_without_budget_witness :
  (∀ m, Some 0 = Some m → m ≤ 0) ∧
  ∃ t w',
    build_tree_json tick_clock example_fs [] "A" None (Some 0) (World 0 [])
      = (Ok t, w') ∧
    ticks w' = ticks (World 0 []) ∧
    ∀ s, s ∈ subtrees t → type (tree_attrs s) = Some folder →
         size_bytes (tree_attrs s) ≠ Some None.
Proof.
  assert (H : ∀ m, Some 0 = Some m → m ≤ 0) by (intros m [= <-]; lia).
  split; [exact H |].
  exact (build_without_budget tick_clock example_fs [] "A" None (Some 0)
           (World 0 []) H).
Defined.

(** ** A root that cannot be walked *)

Lemma tree_data_bare_root root :
  tree_data (bare_root root) root =
  Ok (Node root (Attrs (Some folder) (Some (basename root)) None) []).
Proof.
  destruct (tree_data_ok root (bare_root root) (single_shaped _ _)) as [t Ht].
  rewrite Ht. f_equal.
  destruct (tree_data_faithful _ _ _ Ht) as [Hid Hfaith].
  destruct (Hfaith t (subtrees_self t)) as [Ha Hc].
  destruct t as [i a children]. simpl in *. subst i.
  unfold node_attrs in Ha. simpl in Ha.
  rewrite bool_decide_eq_true_2 in Ha by done. injection Ha as <-.
  unfold successors in Hc. simpl in Hc. by destruct children.
Qed.

(** X3: when the root path does not resolve to a directory that can be
    listed (it does not exist, it is a file, or listing it fails), the walk
    yields nothing and [build_tree_json] returns the defensive document: a
    single node of type folder, named by the last segment of the path,
    without a size key and without children. *)
Theorem build_of_unwalkable_root clock fs cwd dir ignore max_seconds w :
  walkable (resolve fs (abspath cwd dir)) = false →
  (build_tree_json clock fs cwd dir ignore max_seconds w).1 =
  Ok (Node (abspath cwd dir)
        (Attrs (Some folder) (Some (basename (abspath cwd dir))) None) []).
Proof.
  intros Hwalk.
  destruct (build_tree_json_spec clock fs cwd dir ignore max_seconds w)
    as (g & w' & t & dl & Hrun & _ & Hb & _ & _ & Ht).
  rewrite Hrun. simpl. rewrite <- Ht.
  rewrite (built_bare _ _ _ _ _ _ _ Hb Hwalk). apply tree_data_bare_root.
Qed.

(** X3 at a path that names a file of the example tree. *)
Lemma build_of_unwalkable_root_witness :
  walkable (resolve example_fs (abspath [] "A/a.txt")) = false ∧
  (build_tree_json tick_clock example_fs [] "A/a.txt" None None (World 0 [])).1 =
  Ok (Node (abspath [] "A/a.txt")
        (Attrs (Some folder) (Some (basename (abspath [] "A/a.txt"))) None) []).
Proof.
  split; [reflexivity |].
  apply (build_of_unwalkable_root tick_clock example_fs [] "A/a.txt" None None
           (World 0 [])).
  reflexivity.
Defined.

(** ** The ignore list as a set *)

(** X4: an explicit ignore list replaces the defaults (a name is ignored
    exactly when it is in the list), and only its set of names matters:
    two lists with the same names, whatever their order and repetitions,
    give the same run of [build_tree_json]. *)
Theorem ignore_list_is_a_set clock fs cwd dir l1 l2 max_seconds w :
  (∀ d, d ∈ l1 ↔ d ∈ l2) →
  (∀ d, not_ignored (_normalize_ignores (Some (IgnoreIter l1))) d = false
        ↔ d ∈ l1) ∧
  build_tree_json clock fs cwd dir (Some (IgnoreIter l1)) max_seconds w =
  build_tree_json clock fs cwd dir (Some (IgnoreIter l2)) max_seconds w.
Proof.
  intros Hl. split.
  - intros d. unfold not_ignored. simpl. rewrite bool_decide_eq_false.
    rewrite <- (elem_of_list_to_set (C := gset string)). split.
    + apply dec_stable.
    + intros H Hn. by apply Hn.
  - assert (Heq : _normalize_ignores (Some (IgnoreIter l1)) =
                  _normalize_ignores (Some (IgnoreIter l2))).
    { simpl. apply set_eq. intros d. rewrite !elem_of_list_to_set. apply Hl. }
    unfold build_tree_json, build_graph. by rewrite Heq.
Qed.

(** X4 at two lists that differ in order and repetition. *)
Lemma ignore_list_is_a_set_witness :
  (∀ d, d ∈ [".git"; "B"; ".git"] ↔ d ∈ ["B"; ".git"]) ∧
  (∀ d, not_ignored
          (_normalize_ignores (Some (IgnoreIter [".git"; "B"; ".git"]))) d
        = false ↔ d ∈ [".git"; "B"; ".git"]) ∧
  build_tree_json tick_clock example_fs [] "A"
    (Some (IgnoreIter [".git"; "B"; ".git"])) None (World 0 []) =
  build_tree_json tick_clock example_fs [] "A"
    (Some (IgnoreIter ["B"; ".git"])) None (World 0 []).
Proof.
  assert (H : ∀ d : string, d ∈ [".git"; "B"; ".git"] ↔ d ∈ ["B"; ".git"]).
  { intros d. rewrite !elem_of_cons, !elem_of_nil. tauto. }
  split; [exact H |].
  exact (ignore_list_is_a_set tick_clock example_fs [] "A"
           [".git"; "B"; ".git"] ["B"; ".git"] None (World 0 []) H).
Defined.

(** ** The nodes and edges of the document *)

(** X5: when the root is a directory that can be listed, the nodes of the
    document are exactly the entries reached from the root through
    directories that can be listed and are not ignored (a directory at the
    end of the way is itself not ignored, a directory that cannot be listed
    is a node without children), and the parent/child pairs are exactly
    the pairs of such a directory and an entry of its listing. *)
Theorem nodes_are_the_kept_entries clock fs cwd dir ignore max_seconds w e0 :
  resolve fs (abspath cwd dir) = Some e0 → walkable (Some e0) = true →
  ∃ t, (build_tree_json clock fs cwd dir ignore max_seconds w).1 = Ok t ∧
    (∀ n, n ∈ tree_ids t ↔
       ∃ rel e, n = abspath cwd dir ++ rel ∧
         located (not_ignored (_normalize_ignores ignore)) e0 rel e) ∧
    (∀ u v, (u, v) ∈ tree_edges t ↔
       ∃ rel nm content c,
         u = abspath cwd dir ++ rel ∧ v = u ++ [entry_name c] ∧
         located (not_ignored (_normalize_ignores ignore)) e0 rel
           (Dir nm true content) ∧
         c ∈ content ∧
         (is_dir c = true →
          not_ignored (_normalize_ignores ignore) (entry_name c) = true)).
Proof.
  intros Hres Hwalk.
  destruct (build_tree_json_spec clock fs cwd dir ignore max_seconds w)
    as (g & w' & t & dl & Hrun & _ & Hb & _ & _ & Ht).
  pose proof (built_shaped _ _ _ _ _ _ _ Hb) as Hg.
  exists t. rewrite Hrun. split; [done |].
  pose proof (λ n, built_node_ids _ _ _ _ _ _ _ _ n Hb Hres Hwalk) as Hnode.
  split.
  - intros n. rewrite <- Hnode. unfold tree_ids. split.
    + intros (s & -> & Hs)%list_elem_of_fmap.
      apply list_elem_of_fmap. exists (tree_id s, tree_attrs s).
      split; [done |]. by eapply tree_node_in_graph.
    + intros Hn. destruct (tree_data_complete _ _ _ _ Hg Ht Hn) as (s & Hs & <-).
      apply list_elem_of_fmap. eauto.
  - intros u v. rewrite (tree_edges_graph _ _ _ _ _ Hg Ht). split.
    + intros He. destruct (ts_edges _ _ Hg _ _ He) as [Hu [x ->]].
      pose proof (ts_target _ _ _ _ Hg He) as Hv.
      apply Hnode in Hu as (rel & eu & -> & Hlu).
      apply Hnode in Hv as (rel' & ev & Heq & Hlv).
      rewrite <- app_assoc in Heq. apply app_inv_head in Heq as <-.
      destruct (located_snoc_inv _ _ _ _ _ Hlv)
        as (nm & content & Hp & Hc & <- & Hk).
      exists rel, nm, content, ev. by split_and!.
    + intros (rel & nm & content & c & -> & -> & Hp & Hc & Hk).
      rewrite <- app_assoc. by eapply built_edge.
Qed.

(** X5 at the example tree. *)
Lemma nodes_are_the_kept_entries_witness :
  resolve example_fs (abspath [] "A") = Some example_A ∧
  walkable (Some example_A) = true ∧
  ∃ t, (build_tree_json tick_clock example_fs [] "A" None None (World 0 [])).1
         = Ok t ∧
    (∀ n, n ∈ tree_ids t ↔
       ∃ rel e, n = abspath [] "A" ++ rel ∧
         located (not_ignored (_normalize_ignores None)) example_A rel e) ∧
    (∀ u v, (u, v) ∈ tree_edges t ↔
       ∃ rel nm content c,
         u = abspath [] "A" ++ rel ∧ v = u ++ [entry_name c] ∧
         located (not_ignored (_normalize_ignores None)) example_A rel
           (Dir nm true content) ∧
         c ∈ content ∧
         (is_dir c = true →
          not_ignored (_normalize_ignores None) (entry_name c) = true)).
Proof.
  split; [reflexivity |]. split; [reflexivity |].
  apply (nodes_are_the_kept_entries tick_clock example_fs [] "A" None None
           (World 0 []) example_A); reflexivity.
Defined.

(** ** The attributes of the nodes *)

Lemma located_last keep e0 rel e :
  located keep e0 rel e → rel ≠ [] → List.last rel "" = entry_name e.
Proof.
  induction 1 as [e | n content c rel e Hc Hk Hloc IH]; [done |]. intros _.
  destruct rel as [| y rel].
  - by inversion Hloc; subst.
  - change (List.last (entry_name c :: y :: rel) "")
      with (List.last (y :: rel) "").
    by apply IH.
Qed.

Lemma basename_app root rel :
  rel ≠ [] → basename (root ++ rel) = List.last rel "".
Proof.
  unfold basename. intros Hne.
  destruct rel as [| x rel _] using rev_ind; [done |].
  by rewrite app_assoc, !List.last_last.
Qed.

(** X6: every node of the document has a type and a name.  The root is a
    folder, named by the last segment of its path, or by the whole path
    when that segment is empty and the root was walked.  Every other node
    is named by the last segment of its id and has a [size_bytes] key. *)
Theorem node_names clock fs cwd dir ignore max_seconds w :
  ∃ t, (build_tree_json clock fs cwd dir ignore max_seconds w).1 = Ok t ∧
    type (tree_attrs t) = Some folder ∧
    name (tree_attrs t) =
      Some (if walkable (resolve fs (abspath cwd dir))
            then parent_name (abspath cwd dir)
            else basename (abspath cwd dir)) ∧
    ∀ s, s ∈ subtrees t → tree_id s ≠ abspath cwd dir →
      name (tree_attrs s) = Some (basename (tree_id s)) ∧
      is_Some (type (tree_attrs s)) ∧ is_Some (size_bytes (tree_attrs s)).
Proof.
  destruct (build_tree_json_spec clock fs cwd dir ignore max_seconds w)
    as (g & w' & t & dl & Hrun & _ & Hb & _ & _ & Ht).
  pose proof (built_shaped _ _ _ _ _ _ _ Hb) as Hg.
  exists t. rewrite Hrun. split; [done |].
  destruct (tree_data_faithful _ _ _ Ht) as [Hroot _].
  assert (Hall : ∀ s, s ∈ subtrees t →
    (tree_id s = abspath cwd dir →
       type (tree_attrs s) = Some folder ∧
       name (tree_attrs s) =
         Some (if walkable (resolve fs (abspath cwd dir))
               then parent_name (abspath cwd dir)
               else basename (abspath cwd dir))) ∧
    (tree_id s ≠ abspath cwd dir →
       name (tree_attrs s) = Some (basename (tree_id s)) ∧
       is_Some (type (tree_attrs s)) ∧ is_Some (size_bytes (tree_attrs s)))).
  { intros s Hs.
    pose proof (tree_node_in_graph _ _ _ _ Hg Ht Hs) as Hn.
    destruct (built_node _ _ _ _ _ _ _ _ _ Hb Hn)
      as [(Hbare & Hid & ->) | (e0 & Hres & Hwalk & rel & e & Hid & Hloc & Ha)].
    - rewrite Hbare. by split.
    - simpl in Hid, Ha. rewrite Hres, Hwalk. split.
      + intros Heq. rewrite Heq in Hid.
        assert (rel = []) as ->.
        { apply (f_equal length) in Hid. rewrite length_app in Hid.
          destruct rel; [done | simpl in Hid; lia]. }
        inversion Hloc; subst. destruct e as [| n l content]; [done |].
        by destruct Ha as (sz & _ & ->).
      + intros Hne. assert (Hrel : rel ≠ []).
        { intros ->. by rewrite app_nil_r in Hid. }
        rewrite Hid, basename_app, (located_last _ _ _ _ Hloc) by done.
        destruct e as [n r sz | n l content].
        * rewrite Ha. simpl. by split_and!.
        * destruct Ha as (sz & _ & ->). destruct rel; [done |]. simpl.
          by split_and!. }
  destruct (Hall t (subtrees_self t)) as [[H1 H2] _]; [done |].
  split_and!; [done | done |]. intros s Hs Hne. by apply Hall.
Qed.

(** X7: in a file system whose directory entries have distinct names, with
    a root that was walked, a node is a folder exactly when its path is a
    directory, and a file node carries what [os.path.getsize] answers for
    its path, be it a regular file or not, and null when the query
    fails. *)
Theorem node_mirrors_entry clock fs cwd dir ignore max_seconds w :
  wf_entry fs = true →
  walkable (resolve fs (abspath cwd dir)) = true →
  ∃ t, (build_tree_json clock fs cwd dir ignore max_seconds w).1 = Ok t ∧
    ∀ s, s ∈ subtrees t →
      ∃ e, resolve fs (tree_id s) = Some e ∧
        type (tree_attrs s) = Some (if is_dir e then folder else file) ∧
        (is_dir e = false → size_bytes (tree_attrs s) = Some (getsize e)).
Proof.
  intros Hwf Hwalk.
  destruct (build_tree_json_spec clock fs cwd dir ignore max_seconds w)
    as (g & w' & t & dl & Hrun & _ & Hb & _ & _ & Ht).
  pose proof (built_shaped _ _ _ _ _ _ _ Hb) as Hg.
  exists t. rewrite Hrun. split; [done |]. intros s Hs.
  pose proof (tree_node_in_graph _ _ _ _ Hg Ht Hs) as Hn.
  destruct (built_node _ _ _ _ _ _ _ _ _ Hb Hn)
    as [(Hbare & _) | (e0 & Hres & _ & rel & e & Hid & Hloc & Ha)];
    [congruence |].
  simpl in Hid, Ha. exists e. split.
  - rewrite Hid, resolve_app, Hres. apply (located_resolve _ _ _ _ ltac:(by eapply wf_resolve) Hloc).
  - destruct e as [n r sz | n l content].
    + rewrite Ha. by split.
    + destruct Ha as (sz & _ & ->). by split.
Qed.

(** X7 at the example tree. *)
Lemma node_mirrors_entry_witness :
  wf_entry example_fs = true ∧
  walkable (resolve example_fs (abspath [] "A")) = true ∧
  ∃ t, (build_tree_json tick_clock example_fs [] "A" None None (World 0 [])).1
         = Ok t ∧
    ∀ s, s ∈ subtrees t →
      ∃ e, resolve example_fs (tree_id s) = Some e ∧
        type (tree_attrs s) = Some (if is_dir e then folder else file) ∧
        (is_dir e = false → size_bytes (tree_attrs s) = Some (getsize e)).
Proof.
  split; [reflexivity |]. split; [reflexivity |].
  apply (node_mirrors_entry tick_clock example_fs [] "A" None None
           (World 0 [])); reflexivity.
Defined.

(** ** [main] on a directory *)






(** ** [main] without a budget *)

Lemma keeps_ticks_print_all lines : keeps_ticks (print_all lines).
Proof. intros w. by rewrite print_all_spec. Qed.

Lemma sizes_without_deadline clock fs ignore_set root g w' n a :
  built clock fs ignore_set root None g w' → (n, a) ∈ nodes g →
  type a = Some folder → size_bytes a ≠ Some None.
Proof.
  intros Hb Hn Hty.
  destruct (built_node _ _ _ _ _ _ _ _ _ Hb Hn)
    as [(_ & _ & ->) | (e0 & _ & _ & rel & e & _ & _ & Ha)]; [done |].
  simpl in Ha. destruct e as [| nm l content].
  { rewrite Ha in Hty. done. }
  destruct Ha as (sz & Hsz & ->). simpl.
  by destruct Hsz as [(_ & d & k & Hd & _) | ->].
Qed.

(** X9: with [--max-seconds] at 0 or below (the documented way to disable
    the limit), [main] reads the clock not even once, whether it fails or
    not, and no folder of the document it returns has a null size. *)
Theorem main_without_budget clock fs cwd args w :
  args_max_seconds args ≤ 0 →
  ticks (main clock fs cwd args w).2 = ticks w ∧
  ∀ out t, (main clock fs cwd args w).1 = Ok (out, t) →
    ∀ s, s ∈ subtrees t → type (tree_attrs s) = Some folder →
         size_bytes (tree_attrs s) ≠ Some None.
Proof.
  intros Hm.
  assert (Hbudget : budget_of args = None).
  { unfold budget_of.
    destruct (Z.ltb_spec 0 (args_max_seconds args)); [lia | done]. }
  destruct (isdir fs (abspath cwd (args_path args))) eqn:Hdir.
  - rewrite (main_run clock fs cwd args w Hdir), Hbudget.
    destruct (makedirs (output_dir_of cwd args) fs) as [fs' |];
      [| split; [done | by intros ? ? ?]].
    pose proof (keeps_ticks_build_tree_json clock fs' cwd
                  (path_string (abspath cwd (args_path args)))
                  (ignore_of args) None ltac:(done)
                  (build_start cwd args w)) as Hk.
    destruct (build_tree_json_spec clock fs' cwd
                (path_string (abspath cwd (args_path args)))
                (ignore_of args) None (build_start cwd args w))
      as (g & w' & t & dl & Hrun & _ & Hb & Hdl & _ & Ht).
    rewrite Hrun in Hk |- *. simpl in Hk.
    destruct (isdir fs' _); simpl; (split; [done |]); [by intros ? ? ? |].
    intros out t' [= _ <-] s Hs Hty.
    rewrite Hdl in Hb by done.
    eapply sizes_without_deadline; [exact Hb | | done].
    by eapply tree_node_in_graph; [eapply built_shaped | |].
  - rewrite (main_bad_root clock fs cwd args w Hdir). by split.
Qed.

(** X9 with [--max-seconds 0] at the example tree. *)
Lemma main_without_budget_witness :
  args_max_seconds (Namespace "A" None None 0) ≤ 0 ∧
  ticks (main tick_clock example_fs [] (Namespace "A" None None 0)
           (World 0 [])).2 = ticks (World 0 []) ∧
  ∀ out t,
    (main tick_clock example_fs [] (Namespace "A" None None 0) (World 0 [])).1
      = Ok (out, t) →
    ∀ s, s ∈ subtrees t → type (tree_attrs s) = Some folder →
         size_bytes (tree_attrs s) ≠ Some None.
Proof.
  assert (H : args_max_seconds (Namespace "A" None None 0) ≤ 0) by (simpl; lia).
  split; [exact H |].
  exact (main_without_budget tick_clock example_fs []
           (Namespace "A" None None 0) (World 0 []) H).
Defined.

(** ** [build_dod] *)

Lemma dod_holds_empty : dod_holds [] [] ∅.
Proof.
  split_and!.
  - intros k. rewrite lookup_empty, elem_of_nil. split; [by intros [] | done].
  - intros k c Hc. by apply elem_of_nil in Hc.
  - intros k inner nm m Hk. by rewrite lookup_empty in Hk.
Qed.

Lemma dod_holds_setdefault ks es d k :
  dod_holds ks es d → dod_holds (ks ++ [k]) es (dod_setdefault d k).
Proof.
  intros (Ha & Hb & Hc). unfold dod_setdefault.
  destruct (d !! k) as [inner0 |] eqn:Hk.
  - split_and!; [| done | done]. intros k'.
    rewrite Ha, elem_of_app, list_elem_of_singleton. split; [auto |].
    intros [? | ->]; [done |]. apply Ha. by rewrite Hk.
  - split_and!.
    + intros k'. rewrite lookup_insert_is_Some', Ha, elem_of_app,
        list_elem_of_singleton.
      split; [intros [-> | ?]; [by right | by left]
             | intros [? | ->]; [by right | by left]].
    + intros k' c Hin. destruct (Hb k' c Hin) as (inner & Hin1 & Hin2).
      exists inner. split; [| done]. rewrite lookup_insert_ne; [done |].
      intros ->. congruence.
    + intros k' inner nm m Hk' Hnm.
      apply lookup_insert_Some in Hk' as [[<- <-] | [_ Hk']].
      * by rewrite lookup_empty in Hnm.
      * by eapply Hc.
Qed.

Lemma dod_holds_put ks es d k c :
  dod_holds ks es d → k ∈ ks →
  ∃ d', dod_put d k (entry_name c) (meta_of c) = Some d' ∧
        dod_holds ks (es ++ [(k, c)]) d'.
Proof.
  intros (Ha & Hb & Hc) Hk. unfold dod_put.
  destruct (proj2 (Ha k) Hk) as [inner Hinner]. rewrite Hinner.
  eexists. split; [done |]. split_and!.
  - intros k'. rewrite lookup_insert_is_Some', Ha.
    split; [by intros [<- | ?] | by right].
  - intros k' c' Hin. apply elem_of_app in Hin as [Hin | Hin].
    + destruct (Hb k' c' Hin) as (inner' & Hin1 & Hin2).
      destruct (decide (k = k')) as [<- | Hne].
      * rewrite lookup_insert_eq. eexists. split; [done |].
        rewrite lookup_insert_is_Some'. right. congruence.
      * rewrite lookup_insert_ne by done. eauto.
    + apply list_elem_of_singleton in Hin as [= -> ->].
      rewrite lookup_insert_eq. eexists. split; [done |].
      by rewrite lookup_insert_eq.
  - intros k' inner' nm m Hk' Hnm.
    apply lookup_insert_Some in Hk' as [[<- <-] | [_ Hk']].
    + apply lookup_insert_Some in Hnm as [[<- <-] | [_ Hnm]].
      * exists c. split_and!; [| done | done].
        apply elem_of_app. right. by apply list_elem_of_singleton.
      * destruct (Hc k inner nm m Hinner Hnm) as (c' & Hin & Hrest).
        exists c'. split; [| done]. apply elem_of_app. by left.
    + destruct (Hc k' inner' nm m Hk' Hnm) as (c' & Hin & Hrest).
      exists c'. split; [| done]. apply elem_of_app. by left.
Qed.

(** A loop whose rounds never raise, make no clock read, and carry an
    invariant of the rounds done so far. *)
Lemma foldM_try_inv {A B} (f : B → A → M (option B))
    (I : list A → B → Prop) (l : list A) :
  (∀ pre x b w, x ∈ l → I pre b →
     ∃ b' w', f b x w = (Some b', w') ∧ ticks w' = ticks w ∧
              I (pre ++ [x]) b') →
  ∀ pre b w, I pre b →
    ∃ b' w', foldM_try f l b w = (Some b', w') ∧ ticks w' = ticks w ∧
             I (pre ++ l) b'.
Proof.
  induction l as [| x l IH]; intros Hstep pre b w HI.
  - exists b, w. by rewrite app_nil_r.
  - cbn [foldM_try]. unfold bind.
    destruct (Hstep pre x b w) as (b1 & w1 & -> & Ht1 & HI1);
      [by left | done |].
    destruct (IH (fun pre x b w Hx =>
                    Hstep pre x b w (list_elem_of_further _ _ _ Hx))
                (pre ++ [x]) b1 w1 HI1) as (b' & w' & -> & Ht' & HI').
    exists b', w'. rewrite <- app_assoc in HI'.
    split_and!; [done | congruence | done].
Qed.

Lemma dod_add_subdir_spec clock subdir parent ks es d c w :
  dod_holds ks es d → parent ∈ ks → is_dir c = true →
  ∃ d' w', dod_add_subdir clock subdir parent d c w = (Some d', w') ∧
           ticks w' = ticks w ∧ dod_holds ks (es ++ [(parent, c)]) d'.
Proof.
  intros Hd Hk Hc. unfold dod_add_subdir. cbv zeta. unfold bind.
  unfold get_folder_size.
  rewrite scan_items_no_deadline, walk_all_bytes, Z.add_0_l.
  destruct (dod_holds_put ks es d parent c Hd Hk) as (d' & Hput & Hd').
  unfold meta_of in Hput. rewrite Hc in Hput.
  unfold ret. rewrite Hput. eauto.
Qed.

Lemma dod_add_file_spec subdir parent ks es d f w :
  dod_holds ks es d → parent ∈ ks → is_dir f = false →
  ∃ d' w', dod_add_file subdir parent d f w = (Some d', w') ∧
           ticks w' = ticks w ∧ dod_holds ks (es ++ [(parent, f)]) d'.
Proof.
  intros Hd Hk Hf. unfold dod_add_file. cbv zeta. unfold bind.
  pose proof (keeps_ticks_try_getsize (join subdir (entry_name f)) f w) as Ht.
  destruct (try_getsize_spec (join subdir (entry_name f)) f w)
    as (w1 & Heq & _).
  rewrite Heq in Ht |- *. simpl in Ht.
  destruct (dod_holds_put ks es d parent f Hd Hk) as (d' & Hput & Hd').
  unfold meta_of in Hput. rewrite Hf in Hput.
  unfold ret. rewrite Hput. eauto.
Qed.

Lemma dod_visit_spec clock ks es d it w :
  dod_holds ks es d →
  (∀ c, c ∈ w_dirs it → is_dir c = true) →
  (∀ f, f ∈ w_files it → is_dir f = false) →
  ∃ d' w', dod_visit clock d it w = (Some d', w') ∧ ticks w' = ticks w ∧
    dod_holds (ks ++ [parent_name (w_top it)])
      (es ++ (pair (parent_name (w_top it)) <$> (w_dirs it ++ w_files it))) d'.
Proof.
  intros Hd Hdirs Hfiles. unfold dod_visit. cbv zeta.
  set (k := parent_name (w_top it)).
  pose proof (dod_holds_setdefault ks es d k Hd) as H0.
  assert (Hk : k ∈ ks ++ [k]).
  { apply elem_of_app. right. by apply list_elem_of_singleton. }
  destruct (foldM_try_inv (dod_add_subdir clock (w_top it) k)
              (fun pre d => dod_holds (ks ++ [k]) (es ++ (pair k <$> pre)) d)
              (w_dirs it)) with (pre := @nil entry) (b := dod_setdefault d k)
              (w := w) as (d1 & w1 & Hrun1 & Ht1 & H1).
  { intros pre c d0 w0 Hc H. rewrite fmap_app, app_assoc.
    apply dod_add_subdir_spec; auto. }
  { simpl. by rewrite app_nil_r. }
  destruct (foldM_try_inv (dod_add_file (w_top it) k)
              (fun pre d => dod_holds (ks ++ [k])
                              (es ++ (pair k <$> (w_dirs it ++ pre))) d)
              (w_files it)) with (pre := @nil entry) (b := d1) (w := w1)
              as (d2 & w2 & Hrun2 & Ht2 & H2).
  { intros pre f d0 w0 Hf H. rewrite app_assoc, fmap_app, app_assoc.
    apply dod_add_file_spec; auto. }
  { by rewrite app_nil_r. }
  exists d2, w2. unfold bind. rewrite Hrun1, Hrun2.
  split_and!; [done | congruence | done].
Qed.

Lemma os_walk_item_kinds keep fs top it :
  it ∈ os_walk keep fs top →
  (∀ c, c ∈ w_dirs it → is_dir c = true ∧ keep (entry_name c) = true) ∧
  (∀ f, f ∈ w_files it → is_dir f = false).
Proof.
  unfold os_walk. destruct (resolve fs top) as [e |];
    [| by intros ?%elem_of_nil].
  intros Hit.
  destruct (walk_item_located _ _ _ _ Hit)
    as (rel & n & content & _ & _ & _ & -> & ->).
  split.
  - by intros c (_ & ? & ?)%elem_of_subdirs.
  - by intros f (_ & ?)%elem_of_nondirs.
Qed.

Lemma recorded_snoc items it :
  recorded (items ++ [it]) =
  recorded items ++ (pair (parent_name (w_top it)) <$> (w_dirs it ++ w_files it)).
Proof. unfold recorded. rewrite flat_map_app. simpl. by rewrite app_nil_r. Qed.

Lemma elem_of_recorded items k c :
  (k, c) ∈ recorded items ↔
  ∃ it, it ∈ items ∧ parent_name (w_top it) = k ∧ c ∈ w_dirs it ++ w_files it.
Proof.
  unfold recorded. rewrite list_elem_of_In, in_flat_map. split.
  - intros (it & Hit & Hc). apply list_elem_of_In in Hit, Hc.
    apply list_elem_of_fmap in Hc as (c' & [= -> ->] & Hc). eauto.
  - intros (it & Hit & <- & Hc). exists it.
    rewrite <- !list_elem_of_In. split; [done |].
    apply list_elem_of_fmap. eauto.
Qed.

(** What [build_dod] returns. *)
Lemma build_dod_spec clock fs root ignore w :
  ∃ d w', build_dod clock fs root ignore w = (Some d, w') ∧
    ticks w' = ticks w ∧
    dod_holds
      (dod_keys (os_walk (not_ignored (_normalize_ignores ignore)) fs root))
      (recorded (os_walk (not_ignored (_normalize_ignores ignore)) fs root))
      d.
Proof.
  unfold build_dod. cbv zeta. unfold bind at 1, print at 1.
  set (items := os_walk _ fs root).
  match goal with |- context [foldM_try _ items ∅ ?w0] => set (w1 := w0) end.
  destruct (foldM_try_inv (dod_visit clock)
              (fun pre d => dod_holds (dod_keys pre) (recorded pre) d) items)
    with (pre := @nil walk_item) (b := (∅ : gmap string (gmap string meta)))
         (w := w1) as (d & w' & Hrun & Ht & Hd).
  { intros pre it d0 w0 Hit H. unfold dod_keys. rewrite fmap_app, recorded_snoc.
    destruct (os_walk_item_kinds _ _ _ _ Hit) as [Hdirs Hfiles].
    apply dod_visit_spec; [done | | done].
    intros c Hc. by apply Hdirs. }
  { apply dod_holds_empty. }
  exists d, w'. split_and!; done.
Qed.

(** X10: [build_dod] never fails on its own dictionary and reads no
    clock.  Its keys are exactly the names of the directories that the walk
    enters (base names, or the whole path for a directory without one), and
    under the name of each such directory there is an entry for every
    subdirectory that is not ignored and for every file of its listing.
    Directories of the same name share one key. *)
Theorem build_dod_records_every_listing clock fs root ignore w :
  ∃ d w', build_dod clock fs root ignore w = (Some d, w') ∧
    ticks w' = ticks w ∧
    (∀ k, is_Some (d !! k) ↔
       ∃ it, it ∈ os_walk (not_ignored (_normalize_ignores ignore)) fs root ∧
             parent_name (w_top it) = k) ∧
    (∀ it c,
       it ∈ os_walk (not_ignored (_normalize_ignores ignore)) fs root →
       c ∈ w_dirs it ++ w_files it →
       ∃ inner, d !! parent_name (w_top it) = Some inner ∧
                is_Some (inner !! entry_name c)).
Proof.
  destruct (build_dod_spec clock fs root ignore w)
    as (d & w' & Hrun & Ht & Ha & Hb & _).
  exists d, w'. split_and!; [done | done | |].
  - intros k. rewrite Ha. unfold dod_keys. rewrite list_elem_of_fmap.
    split; [intros (it & -> & ?) | intros (it & ? & <-)]; eauto.
  - intros it c Hit Hc. apply Hb, elem_of_recorded. eauto.
Qed.

(** X11: every entry of the dictionary of [build_dod] is the metadata of a
    child listed in a directory of the walk that has the key as its name:
    type folder with the complete folder size for a directory, type file
    with the answer of [os.path.getsize] (null when it fails) for anything
    else.  A folder entry never has an ignored name, and, there being no
    time budget here, never a null size. *)
Theorem build_dod_metadata clock fs root ignore w :
  ∃ d, (build_dod clock fs root ignore w).1 = Some d ∧
    ∀ k inner nm m, d !! k = Some inner → inner !! nm = Some m →
      (∃ it c,
         it ∈ os_walk (not_ignored (_normalize_ignores ignore)) fs root ∧
         parent_name (w_top it) = k ∧ c ∈ w_dirs it ++ w_files it ∧
         entry_name c = nm ∧ m = meta_of c) ∧
      (meta_type m = folder →
         (nm ∉ _normalize_ignores ignore) ∧ is_Some (meta_size m)).
Proof.
  destruct (build_dod_spec clock fs root ignore w)
    as (d & w' & Hrun & _ & _ & _ & Hc).
  exists d. rewrite Hrun. split; [done |]. intros k inner nm m Hk Hnm.
  destruct (Hc k inner nm m Hk Hnm) as (c & Hin & <- & ->).
  apply elem_of_recorded in Hin as (it & Hit & <- & Hcin).
  split; [by eauto 10 |]. intros Hty.
  destruct (os_walk_item_kinds _ _ _ _ Hit) as [Hdirs Hfiles].
  unfold meta_of in *. apply elem_of_app in Hcin as [Hd | Hf].
  - destruct (Hdirs c Hd) as [-> Hkeep]. simpl. split; [| by eexists].
    by apply bool_decide_eq_true in Hkeep.
  - rewrite (Hfiles c Hf) in Hty. done.
Qed.

Lemma built_edge_item clock fs ignore_set root dl g w' u v :
  built clock fs ignore_set root dl g w' → (u, v) ∈ edges g →
  ∃ it c, it ∈ os_walk (not_ignored ignore_set) fs root ∧ w_top it = u ∧
          c ∈ w_dirs it ++ w_files it ∧ v = u ++ [entry_name c].
Proof.
  intros Hb He. pose proof (built_shaped _ _ _ _ _ _ _ Hb) as Hg.
  destruct (walkable (resolve fs root)) eqn:Hwalk.
  2:{ rewrite (built_bare _ _ _ _ _ _ _ Hb Hwalk) in He.
      by apply elem_of_nil in He. }
  destruct (resolve fs root) as [e0 |] eqn:Hres; [| done].
  destruct (ts_edges _ _ Hg _ _ He) as [Hu [x ->]].
  pose proof (ts_target _ _ _ _ Hg He) as Hv.
  apply (built_node_ids _ _ _ _ _ _ _ _ _ Hb Hres Hwalk) in Hu
    as (rel & eu & -> & Hlu).
  apply (built_node_ids _ _ _ _ _ _ _ _ _ Hb Hres Hwalk) in Hv
    as (rel' & ev & Heq & Hlv).
  rewrite <- app_assoc in Heq. apply app_inv_head in Heq as <-.
  destruct (located_snoc_inv _ _ _ _ _ Hlv)
    as (nm & content & Hp & Hc & <- & Hk).
  destruct (located_walk_item _ _ _ _ _ Hp root) as (it & Hit & Htop & Hd & Hf).
  exists it, ev. unfold os_walk. rewrite Hres.
  split_and!; [done | done | | done].
  rewrite Hd, Hf. by apply kept_child_listed.
Qed.

(** X12: when [build_dod] is given the absolute, normalised form of the
    path that [build_tree_json] is given, and the same ignore list, the two
    representations agree: every parent/child pair of the document of
    [build_tree_json] is found in the dictionary of [build_dod], the child
    under its name, in the entry of the name of the parent.  [build_dod]
    does not make its argument absolute itself; for an argument such as
    ["."] or ["A/"] the key of the root is that text, and no agreement is
    stated. *)
Theorem dod_covers_the_tree clock fs cwd dir ignore max_seconds w w0 :
  ∃ t d,
    (build_tree_json clock fs cwd dir ignore max_seconds w).1 = Ok t ∧
    (build_dod clock fs (abspath cwd dir) ignore w0).1 = Some d ∧
    ∀ u v, (u, v) ∈ tree_edges t →
      ∃ inner, d !! parent_name u = Some inner ∧ is_Some (inner !! basename v).
Proof.
  destruct (build_tree_json_spec clock fs cwd dir ignore max_seconds w)
    as (g & w' & t & dl & Hrun & _ & Hb & _ & _ & Ht).
  destruct (build_dod_spec clock fs (abspath cwd dir) ignore w0)
    as (d & w1 & Hdod & _ & _ & Hrec & _).
  exists t, d. rewrite Hrun, Hdod. split_and!; [done | done |].
  intros u v He.
  apply (tree_edges_graph _ _ _ _ _ (built_shaped _ _ _ _ _ _ _ Hb) Ht) in He.
  destruct (built_edge_item _ _ _ _ _ _ _ _ _ Hb He)
    as (it & c & Hit & <- & Hc & ->).
  rewrite basename_app by done. simpl.
  apply Hrec, elem_of_recorded. eauto.
Qed.

(** ** The order of the children *)

Lemma edges_add_node g n a : edges (add_node g n a) = edges g.
Proof. unfold add_node. by destruct (has_node g n). Qed.

Lemma edges_add_edge g u v :
  edges (add_edge g u v) = push_edge (edges g) (u, v).
Proof.
  unfold add_edge, push_edge, has_edge. cbv zeta.
  set (g1 := if has_node g u then g else add_node g u no_attrs).
  set (g2 := if has_node g1 v then g1 else add_node g1 v no_attrs).
  assert (H1 : edges g1 = edges g).
  { subst g1. destruct (has_node g u); [done | apply edges_add_node]. }
  assert (H2 : edges g2 = edges g).
  { subst g2. destruct (has_node g1 v); [done | by rewrite edges_add_node]. }
  rewrite H2. destruct (bool_decide _); [exact H2 | done].
Qed.

Lemma edges_add_subdir clock dl subdir parent g d w :
  edges (add_subdir clock dl subdir parent g d w).1 =
  push_edge (edges g) (parent, join subdir (entry_name d)).
Proof.
  unfold add_subdir, abspath_path, bind, ret.
  destruct (has_node g (join subdir (entry_name d))).
  - simpl. apply edges_add_edge.
  - destruct (get_folder_size clock _ d dl w) as [sz w1]. simpl.
    by rewrite edges_add_edge, edges_add_node.
Qed.

Lemma edges_add_file subdir parent g f w :
  edges (add_file subdir parent g f w).1 =
  push_edge (edges g) (parent, join subdir (entry_name f)).
Proof.
  unfold add_file, abspath_path, bind, ret.
  destruct (try_getsize _ f w) as [sz w1]. simpl. rewrite edges_add_edge.
  by destruct (has_node g _); [| rewrite edges_add_node].
Qed.

Lemma edges_foldM {A} (f : DiGraph → A → M DiGraph) (h : A → path * path) l :
  (∀ g x w, edges (f g x w).1 = push_edge (edges g) (h x)) →
  ∀ g w, edges (foldM f l g w).1 = fold_left push_edge (h <$> l) (edges g).
Proof.
  intros Hf. induction l as [| x l IH]; intros g w; [done |].
  cbn [foldM]. unfold bind. specialize (Hf g x w).
  destruct (f g x w) as [g1 w1]. rewrite IH. simpl in Hf.
  rewrite fmap_cons. cbn [fold_left]. by rewrite Hf.
Qed.

Lemma edges_visit clock dl g it w :
  edges (visit clock dl g it w).1 =
  fold_left push_edge (item_edges it) (edges g).
Proof.
  unfold visit, abspath_path. cbv zeta. unfold bind at 1.
  destruct ((if has_node g (w_top it) then ret g else _) w) as [g1 w1] eqn:H1.
  assert (Hg1 : edges g1 = edges g).
  { destruct (has_node g (w_top it)).
    - by injection H1 as <- _.
    - unfold bind, ret in H1.
      destruct (get_folder_size clock _ _ dl w) as [sz w0].
      injection H1 as <- _. apply edges_add_node. }
  unfold bind.
  pose proof (edges_foldM (add_subdir clock dl (w_top it) (w_top it))
                (fun c => (w_top it, join (w_top it) (entry_name c)))
                (w_dirs it) (edges_add_subdir clock dl _ _) g1 w1) as H2.
  destruct (foldM _ (w_dirs it) g1 w1) as [g2 w2]. simpl in H2.
  rewrite (edges_foldM (add_file (w_top it) (w_top it))
             (fun c => (w_top it, join (w_top it) (entry_name c)))
             (w_files it) (edges_add_file _ _)).
  unfold item_edges. by rewrite fmap_app, fold_left_app, H2, Hg1.
Qed.

Lemma edges_walk_loop clock dl items g w :
  edges (foldM (visit clock dl) items g w).1 =
  fold_left push_edge (List.flat_map item_edges items) (edges g).
Proof.
  revert g w. induction items as [| it items IH]; intros g w; [done |].
  cbn [foldM List.flat_map]. unfold bind.
  pose proof (edges_visit clock dl g it w) as Hv.
  destruct (visit clock dl g it w) as [g1 w1]. simpl in Hv.
  by rewrite IH, fold_left_app, Hv.
Qed.

Lemma push_edge_known es e : e ∈ es → push_edge es e = es.
Proof. intros He. unfold push_edge. by rewrite bool_decide_eq_true_2. Qed.

Lemma push_edge_fresh es e : e ∉ es → push_edge es e = es ++ [e].
Proof. intros He. unfold push_edge. by rewrite bool_decide_eq_false_2. Qed.

Lemma filter_push_edge (P : path * path → bool) es e :
  List.filter P (push_edge es e) =
  if P e then push_edge (List.filter P es) e else List.filter P es.
Proof.
  destruct (decide (e ∈ es)) as [He | He].
  - rewrite push_edge_known by done. destruct (P e) eqn:HP; [| done].
    rewrite push_edge_known; [done |].
    apply list_elem_of_In, filter_In. by rewrite <- list_elem_of_In.
  - rewrite push_edge_fresh, List.filter_app by done. simpl.
    destruct (P e); [| by rewrite app_nil_r].
    rewrite push_edge_fresh; [done |].
    intros [Hin _]%list_elem_of_In%filter_In. by apply He, list_elem_of_In.
Qed.

Lemma filter_push_all (P : path * path → bool) l es :
  List.filter P (fold_left push_edge l es) =
  fold_left push_edge (List.filter P l) (List.filter P es).
Proof.
  revert es. induction l as [| e l IH]; intros es; [done |].
  cbn [fold_left List.filter]. rewrite IH, filter_push_edge.
  by destruct (P e).
Qed.

Lemma push_all_known l es :
  (∀ e, e ∈ l → e ∈ es) → fold_left push_edge l es = es.
Proof.
  induction l as [| e l IH]; intros Hl; [done |].
  cbn [fold_left]. rewrite push_edge_known by (apply Hl; by left).
  apply IH. intros e' He'. apply Hl. by right.
Qed.

Lemma push_all_fresh l es :
  NoDup l → (∀ e, e ∈ l → e ∉ es) → fold_left push_edge l es = es ++ l.
Proof.
  intros Hnd. revert es. induction Hnd as [| e l He Hnd IH]; intros es Hl.
  - by rewrite app_nil_r.
  - cbn [fold_left]. rewrite push_edge_fresh by (apply Hl; by left).
    rewrite IH, <- app_assoc; [done |].
    intros e' He' [Hin | ->%list_elem_of_singleton]%elem_of_app; [| done].
    apply (Hl e'); [by right | done].
Qed.

Lemma filter_item_edges u it :
  List.filter (from_node u) (item_edges it) =
  if bool_decide (w_top it = u) then item_edges it else [].
Proof.
  unfold item_edges. induction (w_dirs it ++ w_files it) as [| c l IH].
  - by destruct (bool_decide _).
  - rewrite fmap_cons. cbn [List.filter]. rewrite IH.
    unfold from_node at 1. simpl. by destruct (bool_decide (w_top it = u)).
Qed.

Section Children.

Variable u : path.
Variable L : list (path * path).
Hypothesis L_nodup : NoDup L.

(** The edges that leave [u] when every item at [u] asks for the edges
    [L]. *)
Lemma children_kept items :
  (∀ it, it ∈ items → w_top it = u → item_edges it = L) →
  fold_left push_edge
    (List.filter (from_node u) (List.flat_map item_edges items)) L = L.
Proof.
  induction items as [| it items IH]; intros Hall; [done |].
  cbn [List.flat_map]. rewrite List.filter_app, fold_left_app, filter_item_edges.
  case_bool_decide as Htop.
  - rewrite (Hall it) by (done || by left).
    rewrite (push_all_known L L) by done. apply IH.
    intros it' Hit'. apply Hall. by right.
  - apply IH. intros it' Hit'. apply Hall. by right.
Qed.

Lemma children_none items :
  (∀ it, it ∈ items → w_top it ≠ u) →
  fold_left push_edge
    (List.filter (from_node u) (List.flat_map item_edges items)) [] = [].
Proof.
  induction items as [| it items IH]; intros Hall; [done |].
  cbn [List.flat_map]. rewrite List.filter_app, fold_left_app, filter_item_edges.
  rewrite bool_decide_eq_false_2 by (apply Hall; by left).
  apply IH. intros it' Hit'. apply Hall. by right.
Qed.

Lemma children_listed items :
  (∀ it, it ∈ items → w_top it = u → item_edges it = L) →
  (∃ it, it ∈ items ∧ w_top it = u) →
  fold_left push_edge
    (List.filter (from_node u) (List.flat_map item_edges items)) [] = L.
Proof.
  induction items as [| it items IH]; intros Hall (it0 & Hit0 & Htop0).
  { by apply elem_of_nil in Hit0. }
  cbn [List.flat_map]. rewrite List.filter_app, fold_left_app, filter_item_edges.
  case_bool_decide as Htop.
  - rewrite (Hall it) by (done || by left).
    rewrite (push_all_fresh L []); [| done | by intros e _ ?%elem_of_nil].
    rewrite app_nil_l. apply children_kept.
    intros it' Hit'. apply Hall. by right.
  - apply IH.
    + intros it' Hit'. apply Hall. by right.
    + apply elem_of_cons in Hit0 as [-> | Hit0]; [done |]. eauto.
Qed.

End Children.

Lemma filter_names_nodup (P : entry → bool) content :
  NoDup (entry_name <$> content) →
  NoDup (entry_name <$> List.filter P content).
Proof.
  induction content as [| c content IH]; [done |].
  rewrite fmap_cons. intros [Hc Hnd]%NoDup_cons. cbn [List.filter].
  destruct (P c); [| by apply IH].
  rewrite fmap_cons. apply NoDup_cons. split; [| by apply IH].
  intros (c' & Hn & Hin)%list_elem_of_fmap. apply Hc.
  apply list_elem_of_fmap. exists c'. split; [done |].
  apply list_elem_of_In, filter_In in Hin as [Hin _]. by apply list_elem_of_In.
Qed.

Lemma kept_listing_nodup keep n l content :
  wf_entry (Dir n l content) = true →
  NoDup (entry_name <$> (subdirs keep content ++ nondirs content)).
Proof.
  intros Hnd%wf_entry_names. rewrite fmap_app. apply NoDup_app. split_and!.
  - by apply filter_names_nodup.
  - intros x (c1 & -> & [H1 [Hd1 _]]%elem_of_subdirs)%list_elem_of_fmap
             (c2 & Hx & [H2 Hd2]%elem_of_nondirs)%list_elem_of_fmap.
    pose proof (child_unique _ _ Hnd H1) as E1.
    pose proof (child_unique _ _ Hnd H2) as E2.
    rewrite Hx, E2 in E1. injection E1 as ->. congruence.
  - by apply filter_names_nodup.
Qed.

Lemma build_tree_json_graph clock fs cwd dir ignore max_seconds w :
  ∃ g dl w',
    (build_tree_json clock fs cwd dir ignore max_seconds w).1 =
      tree_data g (abspath cwd dir) ∧
    built clock fs (_normalize_ignores ignore) (abspath cwd dir) dl g w' ∧
    edges g =
      fold_left push_edge
        (List.flat_map item_edges
           (os_walk (not_ignored (_normalize_ignores ignore)) fs
              (abspath cwd dir))) [].
Proof.
  destruct (build_graph_loop clock fs cwd dir ignore max_seconds w)
    as (dl0 & w1 & Hloop & _).
  unfold build_tree_json, bind.
  destruct (build_graph clock fs cwd dir ignore max_seconds w)
    as [[root g] w'] eqn:Hg.
  destruct (build_graph_spec _ _ _ _ _ _ _ _ _ _ Hg)
    as (-> & _ & dl & Hbuilt & _).
  exists g, dl, w'. split_and!; [done | done |].
  simpl in Hloop. injection Hloop as ->.
  unfold with_root.
  destruct (has_node _ _); [| rewrite edges_add_node]; apply edges_walk_loop.
Qed.

(** X13: in a file system whose directory entries have distinct names,
    with a root that was walked, the children of every node of the document
    are, in this order, the subdirectories of its listing that are not
    ignored and then the other entries of its listing, each group in the
    order of the listing; a file and a directory that cannot be listed
    have no children. *)
Theorem children_in_listing_order clock fs cwd dir ignore max_seconds w :
  wf_entry fs = true →
  walkable (resolve fs (abspath cwd dir)) = true →
  ∃ t, (build_tree_json clock fs cwd dir ignore max_seconds w).1 = Ok t ∧
    ∀ s, s ∈ subtrees t →
      ∃ e, resolve fs (tree_id s) = Some e ∧
        tree_id <$> tree_children s =
        (fun c => tree_id s ++ [entry_name c]) <$>
          kept_listing (not_ignored (_normalize_ignores ignore)) e.
Proof.
  intros Hwf Hwalk.
  destruct (build_tree_json_graph clock fs cwd dir ignore max_seconds w)
    as (g & dl & w' & Hrun & Hb & Hedges).
  pose proof (built_shaped _ _ _ _ _ _ _ Hb) as Hg.
  destruct (tree_data_ok _ _ Hg) as [t Ht].
  exists t. rewrite Hrun. split; [done |]. intros s Hs.
  destruct (tree_data_faithful _ _ _ Ht) as [_ Hfaith].
  destruct (Hfaith s Hs) as [_ Hsucc]. rewrite Hsucc. clear Hsucc.
  pose proof (tree_node_in_graph _ _ _ _ Hg Ht Hs) as Hn.
  destruct (built_node _ _ _ _ _ _ _ _ _ Hb Hn)
    as [(Hbare & _) | (e0 & Hres & _ & rel & e & Hid & Hloc & _)];
    [congruence |].
  simpl in Hid. pose proof (wf_resolve _ _ _ Hwf Hres) as Hwf0.
  pose proof (located_resolve _ _ _ _ Hwf0 Hloc) as Hrel.
  exists e. split.
  { by rewrite Hid, resolve_app, Hres. }
  unfold successors. fold (from_node (tree_id s)).
  rewrite Hedges, filter_push_all. cbn [List.filter].
  unfold os_walk. rewrite Hres.
  set (keep := not_ignored (_normalize_ignores ignore)) in *.
  set (root := abspath cwd dir) in *.
  assert (Hitems : ∀ it, it ∈ walk keep root e0 → w_top it = tree_id s →
            ∃ n content, e = Dir n true content ∧
              w_dirs it = subdirs keep content ∧
              w_files it = nondirs content).
  { intros it Hit Htop.
    destruct (walk_item_located _ _ _ _ Hit)
      as (rel' & n & content & Htop' & Hloc' & _ & Hd & Hf).
    rewrite Htop, Hid in Htop'. apply app_inv_head in Htop' as <-.
    pose proof (located_resolve _ _ _ _ Hwf0 Hloc') as Hrel'.
    rewrite Hrel in Hrel'. injection Hrel' as ->. eauto. }
  assert (Hcase : (∃ n content, e = Dir n true content) ∨
                  ¬ (∃ n content, e = Dir n true content)).
  { destruct e as [| n [] content];
      [right | left | right]; eauto; by intros (? & ? & ?). }
  destruct Hcase as [(n & content & ->) | Hno].
  - simpl kept_listing.
    set (L := (fun c => (tree_id s, join (tree_id s) (entry_name c))) <$>
                (subdirs keep content ++ nondirs content)).
    rewrite (children_listed (tree_id s) L).
    + unfold L. rewrite <- list_fmap_compose. done.
    + unfold L. rewrite (list_fmap_compose entry_name
        (fun x => (tree_id s, join (tree_id s) x))).
      apply NoDup_fmap_2_strong;
        [| eapply kept_listing_nodup, wf_resolve; [exact Hwf0 | exact Hrel]].
      intros x y _ _ [= Heq]. unfold join in Heq.
      by apply app_inv_head in Heq as [= ->].
    + intros it Hit Htop.
      destruct (Hitems it Hit Htop) as (n' & content' & [= <- <-] & Hd & Hf).
      unfold item_edges, L. by rewrite Htop, Hd, Hf.
    + destruct (located_walk_item _ _ _ _ _ Hloc root)
        as (it & Hit & Htop & _). exists it. by rewrite Htop, Hid.
  - rewrite children_none.
    + destruct e as [| n [] content]; [done | | done].
      exfalso. apply Hno. eauto.
    + intros it Hit Htop. apply Hno.
      destruct (Hitems it Hit Htop) as (n & content & -> & _). eauto.
Qed.

(** X13 at the example tree. *)
Lemma children_in_listing_order_witness :
  wf_entry example_fs = true ∧
  walkable (resolve example_fs (abspath [] "A")) = true ∧
  ∃ t, (build_tree_json tick_clock example_fs [] "A" None None (World 0 [])).1
         = Ok t ∧
    ∀ s, s ∈ subtrees t →
      ∃ e, resolve example_fs (tree_id s) = Some e ∧
        tree_id <$> tree_children s =
        (fun c => tree_id s ++ [entry_name c]) <$>
          kept_listing (not_ignored (_normalize_ignores None)) e.
Proof.
  split; [reflexivity |]. split; [reflexivity |].
  apply (children_in_listing_order tick_clock example_fs [] "A" None None
           (World 0 [])); reflexivity.
Defined.

(** ** What a build prints *)











